(** * Permission graph: node and edge store, hierarchy traversals and
      permission resolution

    Shallow embedding of [node.py], [edge.py] and [graph.py], and of the
    graph that [main.py] builds.

    - A Python dictionary keyed by node id is a [gmap string _]. The two
      adjacency indexes are [defaultdict(list)] objects: subscripting
      creates a missing entry, [.get(k, [])] does not.
    - A generator is represented by its run when consumed to the end: the
      values it yields, in order, and the exception that ends it, if any.
    - The recursive generator [_iter_descendants] carries the number of
      nested generator frames the interpreter still allows; with none left
      the interpreter raises [RecursionError].
    - The [while] loop of [iter_resource_hierarchy] is iterated at most a
      given number of times; that a number computed from the graph always
      suffices is a theorem.
    - The methods are first written as functions of the graph. To see
      what a call does to the object, each is written once more with
      [self] threaded through every dictionary operation of its body;
      the two forms are proved to agree.
    - Two records cannot share a field name, so the [type] fields are
      [ntype] and [etype], and the [role] of a [PermissionEntry] is
      [prole]. Logging is left out.
    - [print_resource_tree] writes to the standard output; its run is the
      list of the lines it prints, one per call of [print], and the
      exception that ends it, if any. An indentation is a Python integer,
      so a [Z]; a string repeated a negative number of times is empty. It
      calls itself, so it carries the number of nested calls still
      available, like [_iter_descendants]. *)

From stdpp Require Import gmap strings list fin_maps relations sorting.

(** ** node.py *)

Inductive NodeType := IDENTITY | RESOURCE.

Inductive IdentityType := USER | GROUP | SERVICE_ACCOUNT.

Inductive ResourceType := ORGANIZATION | FOLDER | PROJECT.

Definition IdentityType_value (t : IdentityType) : string :=
  match t with
  | USER => "User"
  | GROUP => "Group"
  | SERVICE_ACCOUNT => "ServiceAccount"
  end.

Definition ResourceType_value (t : ResourceType) : string :=
  match t with
  | ORGANIZATION => "Organization"
  | FOLDER => "Folder"
  | PROJECT => "Project"
  end.

(** [class Node]: a frozen dataclass with fields [type], [inner_type], [id]. *)
Record Node := mkNode {
  ntype : NodeType;
  inner_type : string;
  id : string
}.

Definition IdentityNode (identity_id : string) (inner : IdentityType) : Node :=
  {| ntype := IDENTITY; inner_type := IdentityType_value inner; id := identity_id |}.

Definition ResourceNode (resource_id : string) (inner : ResourceType) : Node :=
  {| ntype := RESOURCE; inner_type := ResourceType_value inner; id := resource_id |}.

Definition NodeType_value (t : NodeType) : string :=
  match t with
  | IDENTITY => "identity"
  | RESOURCE => "resource"
  end.

(** [Node.__str__]: [f"{self.type.value}:{self.inner_type}:{self.id}"]. *)
Definition Node_str (self : Node) : string :=
  NodeType_value (ntype self) +:+ ":" +:+ inner_type self +:+ ":" +:+ id self.

(** ** edge.py *)

Inductive RoleType := OWNER | VIEWER | EDITOR.

Inductive EdgeType := PARENT_OF | HAS_ROLE.

(** [class Edge] is a dataclass with the fields [source], [target] and
    [type]. The attribute [role] is set by [HasRoleEdge.__init__] only; on
    an instance built any other way reading it raises [AttributeError],
    hence the [option]. *)
Record Edge := mkEdge {
  source : Node;
  target : Node;
  etype : EdgeType;
  role : option RoleType
}.

(** [Edge(source, target, type)]: the constructor of the dataclass itself. *)
Definition BaseEdge (s t : Node) (ty : EdgeType) : Edge :=
  {| source := s; target := t; etype := ty; role := None |}.

Definition ParentOfEdge (parent child : Node) : Edge :=
  {| source := parent; target := child; etype := PARENT_OF; role := None |}.

Definition HasRoleEdge (identity resource : Node) (r : RoleType) : Edge :=
  {| source := identity; target := resource; etype := HAS_ROLE; role := Some r |}.

#[global] Instance NodeType_eq_dec : EqDecision NodeType.
Proof. solve_decision. Defined.

#[global] Instance RoleType_eq_dec : EqDecision RoleType.
Proof. solve_decision. Defined.

#[global] Instance EdgeType_eq_dec : EqDecision EdgeType.
Proof. solve_decision. Defined.

#[global] Instance Node_eq_dec : EqDecision Node.
Proof. solve_decision. Defined.

#[global] Instance Edge_eq_dec : EqDecision Edge.
Proof. solve_decision. Defined.

Definition is_parent_of (e : Edge) : Prop := etype e = PARENT_OF.

Definition is_has_role (e : Edge) : Prop := etype e = HAS_ROLE.

#[global] Instance is_parent_of_dec e : Decision (is_parent_of e).
Proof. unfold is_parent_of. apply _. Defined.

#[global] Instance is_has_role_dec e : Decision (is_has_role e).
Proof. unfold is_has_role. apply _. Defined.

Definition source_is (k : string) (e : Edge) : Prop := id (source e) = k.

Definition target_is (k : string) (e : Edge) : Prop := id (target e) = k.

#[global] Instance source_is_dec k e : Decision (source_is k e).
Proof. unfold source_is. apply _. Defined.

#[global] Instance target_is_dec k e : Decision (target_is k e).
Proof. unfold target_is. apply _. Defined.

(** ** Exceptions and generators *)

Inductive exn :=
  | ValueError
  | NodeNotFoundError (node_id : string)
  | AttributeError
  | RecursionError.

#[global] Instance exn_eq_dec : EqDecision exn.
Proof. solve_decision. Defined.

(** The run of a generator consumed to its end. *)
Record gen (A : Type) := mkGen {
  yielded : list A;
  raised : option exn
}.

Arguments mkGen {A} _ _.

Arguments yielded {A} _.

Arguments raised {A} _.

Definition gen_done {A} (l : list A) : gen A := mkGen l None.

Definition gen_yield {A} (a : A) : gen A := mkGen [a] None.

Definition gen_raise {A} (e : exn) : gen A := mkGen [] (Some e).

(** [first; second]: the second part only runs if the first did not raise. *)
Definition gen_seq {A} (first second : gen A) : gen A :=
  match raised first with
  | Some _ => first
  | None => mkGen (yielded first ++ yielded second) (raised second)
  end.

(** [for x in src: body(x)]: the body runs for every value [src] yields,
    until a body raises; an exception ending [src] surfaces after the
    values yielded before it have been processed. *)
Definition gen_for {A B} (src : gen A) (body : A → gen B) : gen B :=
  foldr (λ a rest, gen_seq (body a) rest) (mkGen [] (raised src)) (yielded src).

(** [yield from sub]. *)
Definition yield_from {A} (sub : gen A) : gen A := gen_for sub gen_yield.

(** ** graph.py *)

Record PermissionEntry := mkPermissionEntry {
  resource_id : string;
  resource_type : string;
  prole : RoleType
}.

#[global] Instance PermissionEntry_eq_dec : EqDecision PermissionEntry.
Proof. solve_decision. Defined.

Record Graph := mkGraph {
  nodes : gmap string Node;
  out_edges : gmap string (list Edge);
  in_edges : gmap string (list Edge)
}.

(** [Graph.__init__] *)
Definition Graph_init : Graph :=
  {| nodes := ∅; out_edges := ∅; in_edges := ∅ |}.

(** [d.get(k, [])] on an adjacency index: a plain lookup. *)
Definition index_get (k : string) (d : gmap string (list Edge)) : list Edge :=
  default [] (d !! k).

(** [d[k].append(e)] on a [defaultdict(list)]: the subscript creates the
    entry when it is missing, then the edge is appended in place. *)
Definition index_append (k : string) (e : Edge) (d : gmap string (list Edge))
  : gmap string (list Edge) :=
  <[k := index_get k d ++ [e]]> d.

Definition add_node (node : Node) (self : Graph) : Graph :=
  match nodes self !! id node with
  | None =>
      {| nodes := <[id node := node]> (nodes self);
         out_edges := out_edges self;
         in_edges := in_edges self |}
  | Some _ => self
  end.

Definition get_node (self : Graph) (node_id : string) : option Node :=
  nodes self !! node_id.

(** [add_edge] returns the graph after the call together with the
    exception raised, if any. *)
Definition add_edge (edge : Edge) (self : Graph) : Graph * option exn :=
  if bool_decide (nodes self !! id (source edge) = None)
     || bool_decide (nodes self !! id (target edge) = None)
  then (self, Some ValueError)
  else
    let self1 := {| nodes := nodes self;
                    out_edges := index_append (id (source edge)) edge (out_edges self);
                    in_edges := in_edges self |} in
    let self2 := {| nodes := nodes self1;
                    out_edges := out_edges self1;
                    in_edges := index_append (id (target edge)) edge (in_edges self1) |} in
    (self2, None).

Definition iter_out_edges (self : Graph) (node_id : string) : gen Edge :=
  gen_for (gen_done (index_get node_id (out_edges self))) gen_yield.

Definition iter_in_edges (self : Graph) (node_id : string) : gen Edge :=
  gen_for (gen_done (index_get node_id (in_edges self))) gen_yield.

Definition iter_children (self : Graph) (node_id : string) : gen Node :=
  gen_for (gen_done (index_get node_id (out_edges self)))
    (λ edge, if decide (etype edge = PARENT_OF)
             then gen_yield (target edge) else gen_done []).

Definition iter_parents (self : Graph) (node_id : string) : gen Node :=
  gen_for (gen_done (index_get node_id (in_edges self)))
    (λ edge, if decide (etype edge = PARENT_OF)
             then gen_yield (source edge) else gen_done []).

(** [depth] is the number of nested generator frames still available. *)
Fixpoint _iter_descendants (depth : nat) (self : Graph) (node_id : string)
  : gen Node :=
  match depth with
  | O => gen_raise RecursionError
  | S depth' =>
      gen_for (iter_children self node_id)
        (λ child, gen_seq (gen_yield child)
                    (yield_from (_iter_descendants depth' self (id child))))
  end.

(** State of the loop of [iter_resource_hierarchy]: the [visited] set, the
    [queue], and the nodes yielded so far. *)
Record bfs_state := mkBfs {
  visited : gset string;
  queue : list string;
  emitted : list Node
}.

(** The body of the inner loop [for parent in self.iter_parents(...)]. *)
Definition visit_parent (st : bfs_state) (parent : Node) : bfs_state :=
  if decide (id parent ∈ visited st) then st
  else {| visited := {[id parent]} ∪ visited st;
          queue := queue st ++ [id parent];
          emitted := emitted st ++ [parent] |}.

(** One iteration of [while queue]: [current_id] has been popped from the
    left, [rest] is what remains queued; the parents are scanned. *)
Definition bfs_iteration (self : Graph) (current_id : string)
    (rest : list string) (st : bfs_state) : bfs_state :=
  foldl visit_parent
    {| visited := visited st; queue := rest; emitted := emitted st |}
    (yielded (iter_parents self current_id)).

(** The [while] loop run for at most [fuel] iterations; [None] when the
    queue is still not empty after that many. *)
Fixpoint bfs_loop (fuel : nat) (self : Graph) (st : bfs_state)
  : option (list Node) :=
  match queue st with
  | [] => Some (emitted st)
  | current_id :: rest =>
      match fuel with
      | O => None
      | S fuel' => bfs_loop fuel' self (bfs_iteration self current_id rest st)
      end
  end.

(** The nodes [iter_resource_hierarchy] yields; it raises nothing. *)
Definition iter_resource_hierarchy (fuel : nat) (self : Graph)
    (resource_id : string) : option (list Node) :=
  bfs_loop fuel self {| visited := ∅; queue := [resource_id]; emitted := [] |}.

Definition iter_user_permissions (depth : nat) (self : Graph)
    (node_identity_id : string) : gen PermissionEntry :=
  match get_node self node_identity_id with
  | None => gen_raise (NodeNotFoundError node_identity_id)
  | Some identity_node =>
      gen_for (iter_out_edges self node_identity_id)
        (λ edge,
           if decide (etype edge ≠ HAS_ROLE) then gen_done []
           else
             let target_resource := target edge in
             match role edge with
             | None => gen_raise AttributeError
             | Some r =>
                 gen_seq
                   (gen_yield {| resource_id := id target_resource;
                                 resource_type := inner_type target_resource;
                                 prole := r |})
                   (gen_for (_iter_descendants depth self (id target_resource))
                      (λ descendant_node,
                         gen_yield {| resource_id := id descendant_node;
                                      resource_type := inner_type descendant_node;
                                      prole := r |}))
             end)
  end.

(** [" " * n]. *)
Fixpoint blanks (n : nat) : string :=
  match n with
  | O => ""
  | S n' => " " +:+ blanks n'
  end.

(** [" " * spaces + f"- {node.id}"]: the line printed for a node. *)
Definition tree_line (spaces : Z) (node_id : string) : string :=
  blanks (Z.to_nat spaces) +:+ "- " +:+ node_id.

(** [print_resource_tree(root_id, spaces)]: the lines printed, in order,
    and the exception raised, if any. [depth] is the number of nested
    calls still available. *)
Fixpoint print_resource_tree (depth : nat) (self : Graph) (root_id : string)
    (spaces : Z) : gen string :=
  match depth with
  | O => gen_raise RecursionError
  | S depth' =>
      match get_node self root_id with
      | None => gen_raise (NodeNotFoundError root_id)
      | Some node =>
          gen_seq (gen_yield (tree_line spaces (id node)))
            (gen_for (iter_children self root_id)
               (λ child,
                  print_resource_tree depth' self (id child) (spaces + 4)%Z))
      end
  end.

(** The ids [queue.popleft()] returns over at most [fuel] iterations of
    the loop of [iter_resource_hierarchy], in order. The loop ends with
    an empty queue, so when it ends these are the ids that were put in
    the queue, in the order in which they were put in: the starting id by
    [deque([resource_id])], the others by [queue.append(parent.id)]. *)
Fixpoint bfs_popped (fuel : nat) (self : Graph) (st : bfs_state)
  : list string :=
  match queue st with
  | [] => []
  | current_id :: rest =>
      match fuel with
      | O => []
      | S fuel' =>
          current_id
          :: bfs_popped fuel' self (bfs_iteration self current_id rest st)
      end
  end.

Definition hierarchy_popped (fuel : nat) (self : Graph)
    (resource_id : string) : list string :=
  bfs_popped fuel self {| visited := ∅; queue := [resource_id]; emitted := [] |}.

(** ** graph.py, with [self] threaded through *)

(** The definitions above take the graph as an argument and hand back a
    result. Here every method is written once more as the interpreter
    runs it: a body receives the object [self] and returns its result
    together with the object as it is afterwards, and every access to
    [self.nodes], [self.out_edges] and [self.in_edges] goes through the
    dictionary operation the source uses at that place. *)
Definition method (A : Type) : Type := Graph → A * Graph.

Definition ret {A} (a : A) : method A := λ self, (a, self).

Definition bind {A B} (m : method A) (f : A → method B) : method B :=
  λ self, let (a, self') := m self in f a self'.

Notation "x ⇐ m ;; f" := (bind m (λ x, f))
  (at level 100, m at next level, f at level 200, right associativity,
   format "'[v' x  ⇐  m  ;;  '/' f ']'").

(** [k not in self.nodes] *)
Definition nodes_missing (k : string) : method bool :=
  λ self, (bool_decide (nodes self !! k = None), self).

(** [self.nodes.get(k)] *)
Definition nodes_get (k : string) : method (option Node) :=
  λ self, (nodes self !! k, self).

(** [self.nodes[k] = node] *)
Definition nodes_setitem (k : string) (node : Node) : method unit :=
  λ self, (tt, {| nodes := <[k := node]> (nodes self);
                  out_edges := out_edges self;
                  in_edges := in_edges self |}).

(** The two adjacency indexes, [self.out_edges] and [self.in_edges]. *)
Inductive adjacency := OutEdges | InEdges.

Definition adjacency_read (a : adjacency) (self : Graph)
  : gmap string (list Edge) :=
  match a with
  | OutEdges => out_edges self
  | InEdges => in_edges self
  end.

Definition adjacency_write (a : adjacency) (d : gmap string (list Edge))
    (self : Graph) : Graph :=
  match a with
  | OutEdges => {| nodes := nodes self; out_edges := d;
                   in_edges := in_edges self |}
  | InEdges => {| nodes := nodes self; out_edges := out_edges self;
                  in_edges := d |}
  end.

(** [self.out_edges.get(k, [])]: the lookup of [dict]; a missing key gives
    the default and the dictionary stays as it is. *)
Definition adjacency_get (a : adjacency) (k : string) : method (list Edge) :=
  λ self, (index_get k (adjacency_read a self), self).

(** [self.out_edges[k]]: the subscript of a [defaultdict(list)]; for a
    missing key [__missing__] stores a new empty list under it. *)
Definition adjacency_getitem (a : adjacency) (k : string)
  : method (list Edge) :=
  λ self,
    match adjacency_read a self !! k with
    | Some l => (l, self)
    | None => ([], adjacency_write a (<[k := []]> (adjacency_read a self)) self)
    end.

(** [.append(e)] on the list stored under [k]. *)
Definition adjacency_append (a : adjacency) (k : string) (e : Edge)
  : method unit :=
  λ self,
    (tt, adjacency_write a
           (alter (λ l, l ++ [e]) k (adjacency_read a self)) self).

(** [first; second] for two parts of a generator body. *)
Definition seq {A} (first second : method (gen A)) : method (gen A) :=
  λ self,
    let (r1, self1) := first self in
    match raised r1 with
    | Some _ => (r1, self1)
    | None => let (r2, self2) := second self1 in (gen_seq r1 r2, self2)
    end.

(** [for x in xs: body(x)] over the items already obtained from the
    iterable; [ending] is how the iterable itself ended. *)
Fixpoint for_each {A B} (xs : list A) (body : A → method (gen B))
    (ending : gen B) : method (gen B) :=
  match xs with
  | [] => ret ending
  | x :: xs' => seq (body x) (for_each xs' body ending)
  end.

(** [for x in src(...): body(x)] over a generator method. The accesses
    that [src] makes to [self] come first: each generator of [graph.py]
    reads [self] when its own loop starts and never afterwards. *)
Definition for_gen {A B} (src : method (gen A)) (body : A → method (gen B))
  : method (gen B) :=
  r ⇐ src ;; for_each (yielded r) body (mkGen [] (raised r)).

Definition add_node_st (node : Node) : method unit :=
  missing ⇐ nodes_missing (id node) ;;
  if missing then nodes_setitem (id node) node else ret tt.

Definition add_edge_st (edge : Edge) : method (option exn) :=
  no_source ⇐ nodes_missing (id (source edge)) ;;
  no_endpoint ⇐ (if no_source then ret true
                 else nodes_missing (id (target edge))) ;;
  if no_endpoint then ret (Some ValueError)
  else
    _ ⇐ adjacency_getitem OutEdges (id (source edge)) ;;
    _ ⇐ adjacency_append OutEdges (id (source edge)) edge ;;
    _ ⇐ adjacency_getitem InEdges (id (target edge)) ;;
    _ ⇐ adjacency_append InEdges (id (target edge)) edge ;;
    ret None.

Definition get_node_st (node_id : string) : method (option Node) :=
  nodes_get node_id.

Definition iter_out_edges_st (node_id : string) : method (gen Edge) :=
  edges ⇐ adjacency_get OutEdges node_id ;;
  for_each edges (λ edge, ret (gen_yield edge)) (gen_done []).

Definition iter_in_edges_st (node_id : string) : method (gen Edge) :=
  edges ⇐ adjacency_get InEdges node_id ;;
  for_each edges (λ edge, ret (gen_yield edge)) (gen_done []).

Definition iter_children_st (node_id : string) : method (gen Node) :=
  edges ⇐ adjacency_get OutEdges node_id ;;
  for_each edges
    (λ edge, if decide (etype edge = PARENT_OF)
             then ret (gen_yield (target edge)) else ret (gen_done []))
    (gen_done []).

Definition iter_parents_st (node_id : string) : method (gen Node) :=
  edges ⇐ adjacency_get InEdges node_id ;;
  for_each edges
    (λ edge, if decide (etype edge = PARENT_OF)
             then ret (gen_yield (source edge)) else ret (gen_done []))
    (gen_done []).

Fixpoint _iter_descendants_st (depth : nat) (node_id : string)
  : method (gen Node) :=
  match depth with
  | O => ret (gen_raise RecursionError)
  | S depth' =>
      for_gen (iter_children_st node_id)
        (λ child,
           seq (ret (gen_yield child))
             (for_gen (_iter_descendants_st depth' (id child))
                (λ n, ret (gen_yield n))))
  end.

Definition bfs_iteration_st (current_id : string) (rest : list string)
    (st : bfs_state) : method bfs_state :=
  r ⇐ iter_parents_st current_id ;;
  ret (foldl visit_parent
         {| visited := visited st; queue := rest; emitted := emitted st |}
         (yielded r)).

Fixpoint bfs_loop_st (fuel : nat) (st : bfs_state)
  : method (option (list Node)) :=
  match queue st with
  | [] => ret (Some (emitted st))
  | current_id :: rest =>
      match fuel with
      | O => ret None
      | S fuel' =>
          st' ⇐ bfs_iteration_st current_id rest st ;; bfs_loop_st fuel' st'
      end
  end.

Definition iter_resource_hierarchy_st (fuel : nat) (resource_id : string)
  : method (option (list Node)) :=
  bfs_loop_st fuel {| visited := ∅; queue := [resource_id]; emitted := [] |}.

Definition iter_user_permissions_st (depth : nat) (node_identity_id : string)
  : method (gen PermissionEntry) :=
  identity_node ⇐ get_node_st node_identity_id ;;
  match identity_node with
  | None => ret (gen_raise (NodeNotFoundError node_identity_id))
  | Some _ =>
      for_gen (iter_out_edges_st node_identity_id)
        (λ edge,
           if decide (etype edge ≠ HAS_ROLE) then ret (gen_done [])
           else
             let target_resource := target edge in
             match role edge with
             | None => ret (gen_raise AttributeError)
             | Some r =>
                 seq
                   (ret (gen_yield {| resource_id := id target_resource;
                                      resource_type := inner_type target_resource;
                                      prole := r |}))
                   (for_gen (_iter_descendants_st depth (id target_resource))
                      (λ descendant_node,
                         ret (gen_yield
                                {| resource_id := id descendant_node;
                                   resource_type := inner_type descendant_node;
                                   prole := r |})))
             end)
  end.

(** ** Client programs *)

(** A call on the construction interface. *)
Inductive call :=
  | AddNode (n : Node)
  | AddEdge (e : Edge).

(** The graph after a call; a client may catch the [ValueError]. *)
Definition apply_call (g : Graph) (c : call) : Graph :=
  match c with
  | AddNode n => add_node n g
  | AddEdge e => fst (add_edge e g)
  end.

(** The graph a sequence of calls builds from a fresh [Graph()]. *)
Definition build (cs : list call) : Graph := foldl apply_call Graph_init cs.

(** Edges of the successful [add_edge] calls of [cs], in call order, when
    the calls start from graph [g]. *)
Fixpoint edge_log (g : Graph) (cs : list call) : list Edge :=
  match cs with
  | [] => []
  | c :: cs' =>
      match c with
      | AddEdge e => if (add_edge e g).2 is None then [e] else []
      | AddNode _ => []
      end ++ edge_log (apply_call g c) cs'
  end.

Definition accepted_edges (cs : list call) : list Edge := edge_log Graph_init cs.

(** Nodes of the [add_node] calls of [cs], in call order. *)
Definition node_log (cs : list call) : list Node :=
  omap (λ c, match c with AddNode n => Some n | AddEdge _ => None end) cs.

(** ** Specification vocabulary *)

(** All edges stored in an adjacency index, as a list. *)
Definition index_edges (d : gmap string (list Edge)) : list Edge :=
  map_to_list d ≫= snd.

(** What every graph built through [add_node] / [add_edge] satisfies: nodes
    are stored under their own id, and whatever id occurs in an adjacency
    index (as a key or as an endpoint of an indexed edge) is a stored
    node. *)
Record graph_wf (g : Graph) : Prop := {
  wf_node_key : ∀ k n, nodes g !! k = Some n → id n = k;
  wf_out_key : ∀ k, is_Some (out_edges g !! k) → is_Some (nodes g !! k);
  wf_in_key : ∀ k, is_Some (in_edges g !! k) → is_Some (nodes g !! k);
  wf_out_edge : ∀ k e, e ∈ index_get k (out_edges g) →
    id (source e) = k ∧ is_Some (nodes g !! id (target e));
  wf_in_edge : ∀ k e, e ∈ index_get k (in_edges g) →
    id (target e) = k ∧ is_Some (nodes g !! id (source e))
}.

Definition children (g : Graph) (k : string) : list Node :=
  yielded (iter_children g k).

Definition parents (g : Graph) (k : string) : list Node :=
  yielded (iter_parents g k).

(** Pre-order listing of the forest below a list of sibling nodes: each
    node, then the listing of its own children, then its later siblings. *)
Inductive preorder (g : Graph) : list Node → list Node → Prop :=
  | preorder_nil : preorder g [] []
  | preorder_cons c siblings below rest :
      preorder g (children g (id c)) below →
      preorder g siblings rest →
      preorder g (c :: siblings) (c :: below ++ rest).

(** One step down the hierarchy, on node ids. *)
Definition child_step (g : Graph) (a b : string) : Prop :=
  b ∈ map id (children g a).

(** No node is its own descendant. *)
Definition acyclic (g : Graph) : Prop := ∀ x, ¬ tc (child_step g) x x.

(** A rank that strictly decreases along PARENT_OF edges; a decidable
    certificate of acyclicity. *)
Definition ranked (rank : string → nat) (g : Graph) : Prop :=
  map_Forall (λ k l,
      Forall (λ e, is_parent_of e → rank (id (target e)) < rank k) l)
    (out_edges g).

(** One step up the hierarchy, on node ids. *)
Definition parent_step (g : Graph) (a b : string) : Prop :=
  b ∈ map id (parents g a).

(** Every id that occurs as the source of an indexed incoming PARENT_OF
    edge: the ids the ancestor walk can ever visit. *)
Definition parent_ids (g : Graph) : gset string :=
  list_to_set (map (λ e, id (source e))
                 (filter is_parent_of (index_edges (in_edges g)))).

(** The set of ids of a list of nodes. *)
Definition id_set (l : list Node) : gset string := list_to_set (map id l).

(** A number of loop iterations that always suffices for the walk. *)
Definition hierarchy_fuel (g : Graph) : nat := S (size (parent_ids g)).

(** A node paired with the level at which the walk discovered it, seen as
    a queue entry. *)
Definition queue_entry (t : Node * nat) : string * nat := (id t.1, t.2).

(** Invariant of the loop of the ancestor walk, stated with ghost data:
    [T] pairs every emitted node with its level, [D] lists the queue
    entries already popped and [Qp] the entries still queued, both with
    their levels. The starting id sits at level 0. *)
Record bfs_inv (g : Graph) (s : string) (st : bfs_state)
    (T : list (Node * nat)) (D Qp : list (string * nat)) : Prop := {
  inv_emitted : emitted st = T.*1;
  inv_trace : (s, 0) :: map queue_entry T = D ++ Qp;
  inv_queue : queue st = Qp.*1;
  inv_nodup : NoDup (map id (emitted st));
  inv_visited : visited st = id_set (emitted st);
  inv_reach : ∀ p l, (p, l) ∈ T → 1 ≤ l ∧ nsteps (parent_step g) l s (id p);
  inv_sorted : StronglySorted le ((D ++ Qp).*2);
  inv_front : ∀ y lh rest, Qp = (y, lh) :: rest →
    ∀ p l, (p, l) ∈ T → l ≤ S lh;
  inv_done : ∀ y l, (y, l) ∈ D → ∀ p, p ∈ parents g y →
    ∃ p' lp, (p', lp) ∈ T ∧ id p' = id p ∧ lp ≤ S l
}.

Definition entry_for (r : RoleType) (n : Node) : PermissionEntry :=
  {| resource_id := id n; resource_type := inner_type n; prole := r |}.

(** The HAS_ROLE edges leaving [k], in insertion order. *)
Definition role_edges (g : Graph) (k : string) : list Edge :=
  filter is_has_role (yielded (iter_out_edges g k)).

(** The entries one HAS_ROLE edge contributes, given the listing of the
    descendants of its target: the direct grant first, then one entry per
    descendant, all with the role of the edge. *)
Definition permission_block (descendants : list Node) (e : Edge)
  : list PermissionEntry :=
  match role e with
  | Some r => entry_for r (target e) :: map (entry_for r) descendants
  | None => []
  end.

(** The block of one HAS_ROLE edge as a run: it ends the way the
    descendant traversal of the edge's target ends. *)
Definition block_run (depth : nat) (g : Graph) (e : Edge)
  : gen PermissionEntry :=
  let below := _iter_descendants depth g (id (target e)) in
  mkGen (permission_block (yielded below) e) (raised below).

(** The permission listing as the specification describes it: a sequence
    of blocks, one per HAS_ROLE edge, in insertion order. *)
Definition permission_blocks (depth : nat) (g : Graph) (k : string)
  : gen PermissionEntry :=
  foldr gen_seq (gen_done []) (map (block_run depth g) (role_edges g k)).

(** The body of the loop of [iter_user_permissions], named. *)
Definition permissions_body (depth : nat) (g : Graph) (edge : Edge)
  : gen PermissionEntry :=
  if decide (etype edge ≠ HAS_ROLE) then gen_done []
  else
    match role edge with
    | None => gen_raise AttributeError
    | Some r =>
        gen_seq (gen_yield (entry_for r (target edge)))
          (gen_for (_iter_descendants depth g (id (target edge)))
             (λ descendant_node, gen_yield (entry_for r descendant_node)))
    end.

(** A node made by one of the two subclass constructors. *)
Definition built_by_constructor (n : Node) : Prop :=
  (∃ i t, n = IdentityNode i t) ∨ (∃ i t, n = ResourceNode i t).

(** No cycle of PARENT_OF edges can be reached from [k] by going down. *)
Definition acyclic_below (g : Graph) (k : string) : Prop :=
  ∀ x, rtc (child_step g) k x → ¬ tc (child_step g) x x.

(** The pre-order listing of the forest below a list of siblings, each
    node paired with its level; the siblings are at level [l]. *)
Inductive preorder_levels (g : Graph)
  : nat → list Node → list (Node * nat) → Prop :=
  | preorder_levels_nil l : preorder_levels g l [] []
  | preorder_levels_cons l c siblings below rest :
      preorder_levels g (S l) (children g (id c)) below →
      preorder_levels g l siblings rest →
      preorder_levels g l (c :: siblings) ((c, l) :: below ++ rest).

(** The line of a node at a level of a tree printed from indentation
    [spaces]: four more blanks per level. *)
Definition line_at (spaces : Z) (t : Node * nat) : string :=
  tree_line (spaces + 4 * Z.of_nat t.2) (id t.1).

(** ** Sample graphs *)

Definition org := ResourceNode "Org" ORGANIZATION.

Definition f1 := ResourceNode "F1" FOLDER.

Definition f2 := ResourceNode "F2" FOLDER.

Definition f5 := ResourceNode "F5" FOLDER.

Definition f6 := ResourceNode "F6" FOLDER.

Definition usr := IdentityNode "U" USER.

Definition gp := ResourceNode "G" ORGANIZATION.

Definition p1 := ResourceNode "P1" FOLDER.

Definition p2 := ResourceNode "P2" FOLDER.

Definition ch := ResourceNode "C" PROJECT.

Definition na := ResourceNode "A" FOLDER.

Definition nb := ResourceNode "B" FOLDER.

(** The fixture of [tests/test_graph.py]. *)
Definition t_org := ResourceNode "org_1" ORGANIZATION.

Definition t_folder := ResourceNode "folder_1" FOLDER.

Definition t_project := ResourceNode "project_1" PROJECT.

Definition t_user := IdentityNode "adi@test.com" USER.

Definition test_graph : Graph :=
  build [AddNode t_org; AddNode t_folder; AddNode t_project; AddNode t_user;
         AddEdge (ParentOfEdge t_org t_folder);
         AddEdge (ParentOfEdge t_folder t_project);
         AddEdge (HasRoleEdge t_user t_folder OWNER)].

(** Org -> F1 -> F5 -> F6, and U owns F1. *)
Definition chain_calls : list call :=
  [AddNode org; AddNode f1; AddNode f5; AddNode f6; AddNode usr;
   AddEdge (ParentOfEdge org f1); AddEdge (ParentOfEdge f1 f5);
   AddEdge (ParentOfEdge f5 f6); AddEdge (HasRoleEdge usr f1 OWNER)].

Definition chain_graph : Graph := build chain_calls.

Definition chain_rank (k : string) : nat :=
  if decide (k = "Org") then 3
  else if decide (k = "F1") then 2
  else if decide (k = "F5") then 1 else 0.

(** Org -> {F1, F2}, F1 -> {F5}. *)
Definition tree_graph : Graph :=
  build [AddNode org; AddNode f1; AddNode f2; AddNode f5;
         AddEdge (ParentOfEdge org f1); AddEdge (ParentOfEdge org f2);
         AddEdge (ParentOfEdge f1 f5)].

Definition tree_rank (k : string) : nat :=
  if decide (k = "Org") then 2 else if decide (k = "F1") then 1 else 0.

(** Two parents converging on a shared grandparent. *)
Definition diamond_graph : Graph :=
  build [AddNode gp; AddNode p1; AddNode p2; AddNode ch;
         AddEdge (ParentOfEdge gp p1); AddEdge (ParentOfEdge gp p2);
         AddEdge (ParentOfEdge p1 ch); AddEdge (ParentOfEdge p2 ch)].

(** A hierarchy with a cycle. *)
Definition cycle_graph : Graph :=
  build [AddNode na; AddNode nb;
         AddEdge (ParentOfEdge na nb); AddEdge (ParentOfEdge nb na)].

(** The cycle A -> B -> A, with U owning A and viewing F1. *)
Definition cycle_role_graph : Graph :=
  build [AddNode na; AddNode nb; AddNode f1; AddNode usr;
         AddEdge (ParentOfEdge na nb); AddEdge (ParentOfEdge nb na);
         AddEdge (HasRoleEdge usr na OWNER);
         AddEdge (HasRoleEdge usr f1 VIEWER)].

(** A role assignment made with the plain [Edge] constructor. *)
Definition bad_role_graph : Graph :=
  build [AddNode usr; AddNode f1; AddEdge (BaseEdge usr f1 HAS_ROLE)].

(** The graph of [build_demo_graph] in [main.py]: the calls its two
    loops make, in order. A parent is an organization when its name
    contains [Org], a folder otherwise; every child is a folder. *)
Definition demo_org := ResourceNode "Organization1" ORGANIZATION.

Definition demo_folder (name : string) := ResourceNode name FOLDER.

Definition demo_user := IdentityNode "adi@test.com" USER.

Definition demo_calls : list call :=
  [AddNode demo_org;
   AddNode (demo_folder "Folder1");
   AddEdge (ParentOfEdge demo_org (demo_folder "Folder1"));
   AddNode (demo_folder "Folder2");
   AddEdge (ParentOfEdge demo_org (demo_folder "Folder2"));
   AddNode (demo_folder "Folder3");
   AddEdge (ParentOfEdge demo_org (demo_folder "Folder3"));
   AddNode (demo_folder "Folder4");
   AddEdge (ParentOfEdge demo_org (demo_folder "Folder4"));
   AddNode (demo_folder "Folder5");
   AddEdge (ParentOfEdge (demo_folder "Folder1") (demo_folder "Folder5"));
   AddNode (demo_folder "Folder6");
   AddEdge (ParentOfEdge (demo_folder "Folder5") (demo_folder "Folder6"));
   AddNode demo_user;
   AddEdge (HasRoleEdge demo_user (demo_folder "Folder1") OWNER)].

Definition build_demo_graph : Graph := build demo_calls.

(** * Lemmas *)

Create HintDb graph discriminated.

(** ** Generator combinators *)

Section gen_seq_facts.
Context {A : Type}.
Implicit Types (s : gen A).

Lemma gen_seq_nil_l s : gen_seq (gen_done []) s = s.
Proof. by destruct s. Qed.

Lemma gen_seq_raised_l s1 s2 x : raised s1 = Some x → gen_seq s1 s2 = s1.
Proof. unfold gen_seq. by intros ->. Qed.

Lemma raised_gen_seq s1 s2 :
  raised (gen_seq s1 s2)
  = match raised s1 with Some x => Some x | None => raised s2 end.
Proof. unfold gen_seq. by destruct (raised s1) eqn:H. Qed.

Lemma yielded_gen_seq s1 s2 :
  raised s1 = None → yielded (gen_seq s1 s2) = yielded s1 ++ yielded s2.
Proof. unfold gen_seq. by intros ->. Qed.
End gen_seq_facts.

Section gen_for_facts.
Context {A B : Type}.
Implicit Types (l : list A) (e : option exn) (body : A → gen B).

Lemma gen_for_cons (a : A) l e body :
  gen_for (mkGen (a :: l) e) body
  = gen_seq (body a) (gen_for (mkGen l e) body).
Proof. reflexivity. Qed.

Lemma gen_for_map (s : gen A) (f : A → B) :
  gen_for s (λ a, gen_yield (f a)) = mkGen (map f (yielded s)) (raised s).
Proof.
  destruct s as [l e]. induction l as [|a l IH]; [done|].
  rewrite gen_for_cons, IH. reflexivity.
Qed.

(** A loop that yields [f a] for the values passing a test. *)
Lemma gen_for_filter_map (P : A → Prop) `{∀ a, Decision (P a)}
    (f : A → B) l :
  gen_for (gen_done l)
    (λ a, if decide (P a) then gen_yield (f a) else gen_done [])
  = gen_done (map f (filter P l)).
Proof.
  induction l as [|a l IH]; [done|].
  unfold gen_done in *. rewrite gen_for_cons, IH.
  rewrite filter_cons. destruct (decide (P a)); reflexivity.
Qed.

Lemma gen_for_ext l e body body' :
  Forall (λ a, body a = body' a) l →
  gen_for (mkGen l e) body = gen_for (mkGen l e) body'.
Proof.
  induction 1 as [|a l Ha _ IH]; [done|].
  by rewrite !gen_for_cons, Ha, IH.
Qed.

(** A loop that ends normally: so did its source and every body. *)
Lemma gen_for_raised_None l e body :
  raised (gen_for (mkGen l e) body) = None →
  Forall (λ a, raised (body a) = None) l ∧ e = None.
Proof.
  induction l as [|a l IH]; [by split|].
  rewrite gen_for_cons, raised_gen_seq.
  destruct (raised (body a)) eqn:Ha; [done|].
  intros [? ?]%IH. split; [by constructor|done].
Qed.

(** The exception ending a loop is the one ending its source or one of
    the bodies. *)
Lemma gen_for_raised_inv l e body (x : exn) :
  raised (gen_for (mkGen l e) body) = Some x →
  e = Some x ∨ ∃ a, a ∈ l ∧ raised (body a) = Some x.
Proof.
  induction l as [|a l IH]; [by left|].
  rewrite gen_for_cons, raised_gen_seq.
  destruct (raised (body a)) as [y|] eqn:Ha.
  - intros [= ->]. right. exists a. split; [left|done].
  - intros [?|(b & ? & ?)]%IH; [by left|].
    right. exists b. split; [by right|done].
Qed.
End gen_for_facts.

Lemma gen_for_yield {A} (s : gen A) : gen_for s gen_yield = s.
Proof. by rewrite gen_for_map, map_id; destruct s. Qed.

Lemma yield_from_id {A} (s : gen A) : yield_from s = s.
Proof. apply gen_for_yield. Qed.

(** ** The plain iterators as list functions *)

Lemma iter_out_edges_eq g k :
  iter_out_edges g k = gen_done (index_get k (out_edges g)).
Proof. apply gen_for_yield. Qed.

Lemma iter_in_edges_eq g k :
  iter_in_edges g k = gen_done (index_get k (in_edges g)).
Proof. apply gen_for_yield. Qed.

Lemma iter_children_eq g k :
  iter_children g k
  = gen_done (map target (filter is_parent_of (index_get k (out_edges g)))).
Proof. apply (gen_for_filter_map is_parent_of). Qed.

Lemma iter_parents_eq g k :
  iter_parents g k
  = gen_done (map source (filter is_parent_of (index_get k (in_edges g)))).
Proof. apply (gen_for_filter_map is_parent_of). Qed.

Lemma iter_children_children g k : iter_children g k = gen_done (children g k).
Proof. unfold children. by rewrite iter_children_eq. Qed.

Lemma parents_elem g k p :
  p ∈ parents g k ↔
  ∃ e, e ∈ index_get k (in_edges g) ∧ is_parent_of e ∧ p = source e.
Proof.
  unfold parents. rewrite iter_parents_eq. simpl.
  rewrite list_elem_of_fmap. split.
  - intros (e & -> & [? ?]%list_elem_of_filter). eauto.
  - intros (e & ? & ? & ->). exists e. split; [done|].
    by apply list_elem_of_filter.
Qed.

Lemma children_nonempty_key g k c :
  c ∈ children g k → k ∈ dom (out_edges g).
Proof.
  unfold children. rewrite iter_children_eq. simpl. unfold index_get.
  destruct (out_edges g !! k) as [l|] eqn:Hk.
  - intros _. apply elem_of_dom. eauto.
  - simpl. by intros ?%elem_of_nil.
Qed.

(** ** Node and edge insertion *)

Lemma index_get_append k e d :
  index_get k (index_append k e d) = index_get k d ++ [e].
Proof. unfold index_append, index_get at 1. by rewrite lookup_insert_eq. Qed.

Lemma index_get_append_ne k k' e d :
  k ≠ k' → index_get k' (index_append k e d) = index_get k' d.
Proof. intros. unfold index_append, index_get. by rewrite lookup_insert_ne. Qed.

Lemma index_append_key k k' e d :
  is_Some (index_append k e d !! k') → k' = k ∨ is_Some (d !! k').
Proof.
  unfold index_append. destruct (decide (k = k')) as [->|Hne]; [by left|].
  rewrite lookup_insert_ne by done. by right.
Qed.

Lemma index_append_elem k k' e e' d :
  e' ∈ index_get k' (index_append k e d) →
  (k' = k ∧ e' = e) ∨ e' ∈ index_get k' d.
Proof.
  destruct (decide (k = k')) as [->|Hne].
  - rewrite index_get_append.
    intros [?|Heq%list_elem_of_singleton]%elem_of_app; subst; auto.
  - rewrite index_get_append_ne by done. auto.
Qed.

Lemma index_edges_append k e d :
  index_edges (index_append k e d) ≡ₚ index_edges d ++ [e].
Proof.
  unfold index_edges, index_append, index_get.
  destruct (d !! k) as [l|] eqn:Hk; simpl.
  - rewrite <-(insert_delete_eq d).
    rewrite <-(insert_delete_id d k l) at 2 by done.
    rewrite !map_to_list_insert by apply lookup_delete_eq.
    simpl. rewrite <-!app_assoc. apply Permutation_app_head.
    apply Permutation_app_comm.
  - rewrite map_to_list_insert by done. simpl.
    apply Permutation_cons_append.
Qed.

Lemma index_get_index_edges d k e : e ∈ index_get k d → e ∈ index_edges d.
Proof.
  unfold index_get, index_edges. destruct (d !! k) as [l|] eqn:Hk; simpl.
  - intros He. apply list_elem_of_bind. exists (k, l).
    split; [done|]. by apply elem_of_map_to_list.
  - by intros ?%elem_of_nil.
Qed.

Lemma add_node_nodes n g k :
  nodes (add_node n g) !! k
  = match nodes g !! k with
    | Some m => Some m
    | None => if decide (id n = k) then Some n else None
    end.
Proof.
  unfold add_node. destruct (nodes g !! id n) as [m|] eqn:Hn; simpl.
  - destruct (nodes g !! k) eqn:Hk; [done|].
    case_decide; congruence.
  - destruct (decide (id n = k)) as [<-|Hne].
    + by rewrite lookup_insert_eq, Hn.
    + rewrite lookup_insert_ne by done. by destruct (nodes g !! k).
Qed.

Lemma add_node_out_edges n g : out_edges (add_node n g) = out_edges g.
Proof. unfold add_node. by destruct (nodes g !! id n). Qed.

Lemma add_node_in_edges n g : in_edges (add_node n g) = in_edges g.
Proof. unfold add_node. by destruct (nodes g !! id n). Qed.

Lemma add_node_stored n g k :
  is_Some (nodes g !! k) → is_Some (nodes (add_node n g) !! k).
Proof. intros [m Hm]. rewrite add_node_nodes, Hm. eauto. Qed.

Lemma add_edge_rejected e g :
  nodes g !! id (source e) = None ∨ nodes g !! id (target e) = None →
  add_edge e g = (g, Some ValueError).
Proof.
  intros H. unfold add_edge.
  destruct H as [H|H]; rewrite H; simpl.
  - reflexivity.
  - by rewrite orb_true_r.
Qed.

Lemma add_edge_accepted e g :
  is_Some (nodes g !! id (source e)) → is_Some (nodes g !! id (target e)) →
  add_edge e g =
    ({| nodes := nodes g;
        out_edges := index_append (id (source e)) e (out_edges g);
        in_edges := index_append (id (target e)) e (in_edges g) |}, None).
Proof.
  intros [s Hs] [t Ht]. unfold add_edge. rewrite Hs, Ht. reflexivity.
Qed.

Lemma add_edge_nodes e g : nodes (add_edge e g).1 = nodes g.
Proof. unfold add_edge. by destruct (_ || _). Qed.

#[local] Hint Resolve add_node_stored : graph.

(** Case analysis on the endpoint check of [add_edge e g]: the call is
    rewritten to its result everywhere, once per outcome. *)
Ltac add_edge_cases e g :=
  let s := fresh "s" in
  let t := fresh "t" in
  destruct (nodes g !! id (source e)) as [s|] eqn:?;
    [destruct (nodes g !! id (target e)) as [t|] eqn:?;
       [rewrite (add_edge_accepted e g) in * by eauto
       |rewrite (add_edge_rejected e g) in * by auto]
    |rewrite (add_edge_rejected e g) in * by auto].

(** ** Histories *)

Section history.
Implicit Types (cs : list call) (g : Graph) (k : string).

Lemma foldl_apply_call_nodes_mono cs g k n :
  nodes g !! k = Some n → nodes (foldl apply_call g cs) !! k = Some n.
Proof.
  revert g. induction cs as [|c cs IH]; intros g Hk; [done|].
  simpl. apply IH. destruct c as [m|e]; simpl.
  - by rewrite add_node_nodes, Hk.
  - by rewrite add_edge_nodes.
Qed.

Lemma edge_log_out cs g k :
  index_get k (out_edges (foldl apply_call g cs))
  = index_get k (out_edges g) ++ filter (source_is k) (edge_log g cs).
Proof.
  revert g. induction cs as [|c cs IH]; intros g; simpl.
  { by rewrite app_nil_r. }
  rewrite IH, filter_app, app_assoc. f_equal.
  destruct c as [n|e]; simpl.
  { by rewrite add_node_out_edges, app_nil_r. }
  add_edge_cases e g; simpl; try by rewrite app_nil_r.
  rewrite filter_cons, filter_nil.
  destruct (decide (source_is k e)) as [<-|Hne].
  - apply index_get_append.
  - rewrite app_nil_r. by apply index_get_append_ne.
Qed.

Lemma edge_log_in cs g k :
  index_get k (in_edges (foldl apply_call g cs))
  = index_get k (in_edges g) ++ filter (target_is k) (edge_log g cs).
Proof.
  revert g. induction cs as [|c cs IH]; intros g; simpl.
  { by rewrite app_nil_r. }
  rewrite IH, filter_app, app_assoc. f_equal.
  destruct c as [n|e]; simpl.
  { by rewrite add_node_in_edges, app_nil_r. }
  add_edge_cases e g; simpl; try by rewrite app_nil_r.
  rewrite filter_cons, filter_nil.
  destruct (decide (target_is k e)) as [<-|Hne].
  - apply index_get_append.
  - rewrite app_nil_r. by apply index_get_append_ne.
Qed.

Lemma edge_log_index_edges cs g :
  index_edges (out_edges (foldl apply_call g cs))
    ≡ₚ index_edges (out_edges g) ++ edge_log g cs
  ∧ index_edges (in_edges (foldl apply_call g cs))
    ≡ₚ index_edges (in_edges g) ++ edge_log g cs.
Proof.
  revert g. induction cs as [|c cs IH]; intros g; simpl.
  { by rewrite !app_nil_r. }
  destruct (IH (apply_call g c)) as [IHo IHi]. rewrite IHo, IHi.
  rewrite !app_assoc.
  destruct c as [n|e]; simpl.
  { by rewrite add_node_out_edges, add_node_in_edges, !app_nil_r. }
  add_edge_cases e g; simpl; try by rewrite !app_nil_r.
  by rewrite !index_edges_append.
Qed.

Lemma edge_log_endpoints cs g e :
  e ∈ edge_log g cs →
  is_Some (nodes (foldl apply_call g cs) !! id (source e))
  ∧ is_Some (nodes (foldl apply_call g cs) !! id (target e)).
Proof.
  revert g. induction cs as [|c cs IH]; intros g; simpl.
  { by intros ?%elem_of_nil. }
  intros [He|He]%elem_of_app; [|by apply IH].
  destruct c as [n|e']; [by apply elem_of_nil in He|].
  add_edge_cases e' g; simpl in He; try by apply elem_of_nil in He.
  apply list_elem_of_singleton in He as ->.
  split; eexists; apply foldl_apply_call_nodes_mono; simpl;
    rewrite add_edge_nodes; eassumption.
Qed.

End history.

(** ** Well-formed graphs *)

Lemma Graph_init_wf : graph_wf Graph_init.
Proof.
  split; simpl; intros *.
  - by rewrite lookup_empty.
  - rewrite lookup_empty. by intros [? ?].
  - rewrite lookup_empty. by intros [? ?].
  - unfold index_get. rewrite lookup_empty. by intros ?%elem_of_nil.
  - unfold index_get. rewrite lookup_empty. by intros ?%elem_of_nil.
Qed.

Lemma add_node_wf n g : graph_wf g → graph_wf (add_node n g).
Proof.
  intros [Hn Hok Hik Ho Hi]. split.
  - intros k m. rewrite add_node_nodes.
    destruct (nodes g !! k) as [m'|] eqn:Hk.
    + intros [= <-]. eauto.
    + case_decide; [|done]. by intros [= <-].
  - intros k. rewrite add_node_out_edges. eauto with graph.
  - intros k. rewrite add_node_in_edges. eauto with graph.
  - intros k e. rewrite add_node_out_edges. intros [? ?]%Ho.
    eauto with graph.
  - intros k e. rewrite add_node_in_edges. intros [? ?]%Hi.
    eauto with graph.
Qed.

Lemma add_edge_wf e g : graph_wf g → graph_wf (add_edge e g).1.
Proof.
  intros Hwf. add_edge_cases e g; [|done..].
  destruct Hwf as [Hn Hok Hik Ho Hi]. split; simpl.
  - done.
  - intros k [->|?]%index_append_key; eauto.
  - intros k [->|?]%index_append_key; eauto.
  - intros k e' [[-> ->]|?]%index_append_elem; eauto.
  - intros k e' [[-> ->]|?]%index_append_elem; eauto.
Qed.

Lemma apply_call_wf c g : graph_wf g → graph_wf (apply_call g c).
Proof. destruct c; simpl; auto using add_node_wf, add_edge_wf. Qed.

Lemma foldl_apply_call_wf cs g :
  graph_wf g → graph_wf (foldl apply_call g cs).
Proof.
  revert g. induction cs as [|c cs IH]; intros g Hwf; [done|].
  simpl. auto using apply_call_wf.
Qed.

Lemma build_wf cs : graph_wf (build cs).
Proof. apply foldl_apply_call_wf, Graph_init_wf. Qed.

Lemma index_get_unknown_out g k :
  graph_wf g → nodes g !! k = None → index_get k (out_edges g) = [].
Proof.
  intros Hwf Hk. unfold index_get.
  destruct (out_edges g !! k) as [l|] eqn:Hl; [|done].
  destruct (wf_out_key g Hwf k) as [n Hn]; [eauto|congruence].
Qed.

Lemma index_get_unknown_in g k :
  graph_wf g → nodes g !! k = None → index_get k (in_edges g) = [].
Proof.
  intros Hwf Hk. unfold index_get.
  destruct (in_edges g !! k) as [l|] eqn:Hl; [|done].
  destruct (wf_in_key g Hwf k) as [n Hn]; [eauto|congruence].
Qed.

Lemma parent_step_stored g a b :
  graph_wf g → parent_step g a b → is_Some (nodes g !! b).
Proof.
  intros Hwf (p & -> & (e & He & _ & ->)%parents_elem)%list_elem_of_fmap.
  by destruct (wf_in_edge g Hwf a e He).
Qed.

(** ** The descendant traversal *)

Section descendants.
Context (g : Graph).
Implicit Types (k : string) (depth : nat).

Lemma _iter_descendants_S depth k :
  _iter_descendants (S depth) g k
  = gen_for (gen_done (children g k))
      (λ child, gen_seq (gen_yield child)
                  (_iter_descendants depth g (id child))).
Proof.
  simpl. rewrite iter_children_children. apply gen_for_ext, Forall_forall.
  intros c _. by rewrite yield_from_id.
Qed.

(** Only the interpreter's depth limit can end the traversal with an
    exception. *)
Lemma _iter_descendants_raised depth k x :
  raised (_iter_descendants depth g k) = Some x → x = RecursionError.
Proof.
  revert k. induction depth as [|d IH]; intros k.
  - by intros [= <-].
  - rewrite _iter_descendants_S.
    intros [?|(c & _ & Hc)]%gen_for_raised_inv; [done|].
    cbv beta in Hc. rewrite raised_gen_seq in Hc. simpl in Hc. eauto.
Qed.

(** Once the traversal completes at some depth, more depth changes
    nothing. *)
Lemma _iter_descendants_stable_S depth k :
  raised (_iter_descendants depth g k) = None →
  _iter_descendants (S depth) g k = _iter_descendants depth g k.
Proof.
  revert k. induction depth as [|d IH]; intros k; [done|].
  rewrite (_iter_descendants_S (S d)), (_iter_descendants_S d).
  intros [Hall _]%gen_for_raised_None.
  apply gen_for_ext. eapply Forall_impl; [exact Hall|].
  intros c Hc. cbv beta in Hc. rewrite raised_gen_seq in Hc. simpl in Hc.
  by rewrite IH.
Qed.

Lemma _iter_descendants_stable depth n k :
  raised (_iter_descendants depth g k) = None →
  _iter_descendants (depth + n) g k = _iter_descendants depth g k.
Proof.
  intros H. induction n as [|n IH].
  - by rewrite Nat.add_0_r.
  - rewrite Nat.add_succ_r, _iter_descendants_stable_S; [done|].
    by rewrite IH.
Qed.

(** A traversal that completes yields the pre-order listing. *)
Lemma _iter_descendants_preorder depth k :
  raised (_iter_descendants depth g k) = None →
  preorder g (children g k) (yielded (_iter_descendants depth g k)).
Proof.
  revert k. induction depth as [|d IH]; intros k; [done|].
  rewrite _iter_descendants_S.
  generalize (children g k) as cs.
  induction cs as [|c cs IHcs]; [constructor|].
  unfold gen_done. rewrite gen_for_cons, raised_gen_seq.
  destruct (raised (gen_seq (gen_yield c) (_iter_descendants d g (id c))))
    eqn:Hc; [done|].
  intros Hrest. rewrite yielded_gen_seq by done.
  rewrite raised_gen_seq in Hc. simpl in Hc.
  rewrite yielded_gen_seq by done. simpl.
  constructor; auto.
Qed.

Hypothesis Hacyc : acyclic g.

(** With the strict ancestors [P] of [k] set aside, a depth exceeding
    the number of remaining keys of the outgoing index is enough: every
    node that still has children uses up one of those keys. *)
Lemma _iter_descendants_enough_from depth :
  ∀ (P : gset string) k,
    (∀ p, p ∈ P → tc (child_step g) p k) →
    size (dom (out_edges g) ∖ P) < depth →
    raised (_iter_descendants depth g k) = None.
Proof.
  induction depth as [|d IH]; intros P k HP Hsize; [lia|].
  rewrite _iter_descendants_S.
  destruct (raised (gen_for _ _)) as [x|] eqn:Hx; [|done].
  apply gen_for_raised_inv in Hx as [?|(c & Hc & Hr)]; [done|].
  cbv beta in Hr. rewrite raised_gen_seq in Hr. simpl in Hr.
  assert (Hk : k ∈ dom (out_edges g)) by eauto using children_nonempty_key.
  assert (HkP : k ∉ P) by (intros ?%HP; by eapply Hacyc).
  assert (Hstep : child_step g k (id c)).
  { unfold child_step. apply list_elem_of_fmap. eauto. }
  rewrite (IH ({[k]} ∪ P) (id c)) in Hr; [done| |].
  - intros p [->%elem_of_singleton|Hp]%elem_of_union.
    + by apply tc_once.
    + eapply tc_r; eauto.
  - assert (size (dom (out_edges g) ∖ ({[k]} ∪ P))
            < size (dom (out_edges g) ∖ P)); [|lia].
    apply subset_size. clear -Hk HkP. set_solver.
Qed.

Lemma _iter_descendants_enough k :
  raised (_iter_descendants (S (size (out_edges g))) g k) = None.
Proof.
  apply (_iter_descendants_enough_from _ ∅).
  - intros p ?%not_elem_of_empty. done.
  - rewrite difference_empty_L, size_dom. lia.
Qed.
End descendants.

Lemma ranked_acyclic rank g : ranked rank g → acyclic g.
Proof.
  intros Hr.
  assert (Hstep : ∀ a b, child_step g a b → rank b < rank a).
  { intros a b. unfold child_step, children. rewrite iter_children_eq. simpl.
    unfold index_get. destruct (out_edges g !! a) as [l|] eqn:Ha; simpl;
      [|by intros ?%elem_of_nil].
    intros (c & -> & (e & -> & [He Hin]%list_elem_of_filter)%list_elem_of_fmap)%list_elem_of_fmap.
    specialize (Hr a l Ha). rewrite Forall_forall in Hr. by apply Hr. }
  assert (Htc : ∀ a b, tc (child_step g) a b → rank b < rank a).
  { induction 1 as [a b H|a b c H _ IH]; [by apply Hstep|].
    apply Hstep in H. lia. }
  intros x Hx%Htc. lia.
Qed.

Lemma tree_graph_acyclic : acyclic tree_graph.
Proof.
  apply (ranked_acyclic tree_rank).
  apply (bool_decide_unpack (ranked tree_rank tree_graph)).
  vm_compute. exact I.
Qed.

(** On the cycle A -> B -> A the traversal never completes, whatever the
    depth, and only ever yields A and B. *)
Lemma cycle_descendants depth :
  (raised (_iter_descendants depth cycle_role_graph "A") = Some RecursionError
   ∧ Forall (λ n, id n ≠ "F1")
       (yielded (_iter_descendants depth cycle_role_graph "A")))
  ∧ (raised (_iter_descendants depth cycle_role_graph "B") = Some RecursionError
     ∧ Forall (λ n, id n ≠ "F1")
         (yielded (_iter_descendants depth cycle_role_graph "B"))).
Proof.
  induction depth as [|d [[IHa IHa'] [IHb IHb']]]; [by repeat split|].
  rewrite !_iter_descendants_S.
  change (children cycle_role_graph "A") with [nb].
  change (children cycle_role_graph "B") with [na].
  unfold gen_done. rewrite !gen_for_cons. unfold gen_for. simpl foldr.
  rewrite !raised_gen_seq. simpl raised.
  change (id nb) with "B". change (id na) with "A". rewrite IHa, IHb.
  unfold gen_seq at 1 3. rewrite !raised_gen_seq. simpl raised.
  rewrite IHa, IHb. unfold gen_seq. simpl.
  split_and!; try done; constructor; done.
Qed.

(** ** Permission resolution *)

Section permissions.
Context (depth : nat) (g : Graph).

Lemma iter_user_permissions_stored k n :
  nodes g !! k = Some n →
  iter_user_permissions depth g k
  = gen_for (gen_done (index_get k (out_edges g))) (permissions_body depth g).
Proof.
  intros Hn. unfold iter_user_permissions, get_node. rewrite Hn.
  rewrite iter_out_edges_eq. reflexivity.
Qed.

Lemma permissions_body_role e r :
  is_has_role e → role e = Some r →
  permissions_body depth g e = block_run depth g e.
Proof.
  intros He Hr. unfold permissions_body, block_run, permission_block.
  rewrite decide_False by (intros ?; contradiction).
  rewrite Hr, gen_for_map. reflexivity.
Qed.

Lemma permissions_body_other e :
  ¬ is_has_role e → permissions_body depth g e = gen_done [].
Proof. intros He. unfold permissions_body. by rewrite decide_True. Qed.

(** The exceptions the loop body can raise. *)
Lemma permissions_body_raised e x :
  raised (permissions_body depth g e) = Some x →
  x = AttributeError ∨ x = RecursionError.
Proof.
  unfold permissions_body. case_decide; [done|].
  destruct (role e) as [r|]; [|intros [= <-]; left; reflexivity].
  rewrite raised_gen_seq, gen_for_map. simpl.
  intros Hx. apply _iter_descendants_raised in Hx. by right.
Qed.

(** The loop is the sequence of the blocks of the HAS_ROLE edges. *)
Lemma permissions_loop_blocks (es : list Edge) :
  (∀ e, e ∈ es → is_has_role e → is_Some (role e)) →
  gen_for (gen_done es) (permissions_body depth g)
  = foldr gen_seq (gen_done [])
      (map (block_run depth g) (filter is_has_role es)).
Proof.
  unfold gen_done. induction es as [|e es IH]; intros Hrole; [done|].
  rewrite gen_for_cons, IH by (intros; apply Hrole; [by right|done]).
  rewrite filter_cons. destruct (decide (is_has_role e)) as [He|He].
  - destruct (Hrole e) as [r Hr]; [left|done|].
    by rewrite (permissions_body_role _ r).
  - rewrite permissions_body_other by done. apply gen_seq_nil_l.
Qed.

(** Without HAS_ROLE edge the loop yields nothing. *)
Lemma permissions_loop_no_role (es : list Edge) :
  filter is_has_role es = [] →
  gen_for (gen_done es) (permissions_body depth g) = gen_done [].
Proof.
  induction es as [|e es IH]; [done|].
  rewrite filter_cons. destruct (decide (is_has_role e)); [done|].
  intros Hes. unfold gen_done. rewrite gen_for_cons.
  rewrite permissions_body_other by done.
  rewrite gen_seq_nil_l. by apply IH.
Qed.

(** When every descendant traversal completes, the blocks concatenate. *)
Lemma permission_blocks_complete (hs : list Edge) :
  Forall (λ e, raised (_iter_descendants depth g (id (target e))) = None) hs →
  foldr gen_seq (gen_done []) (map (block_run depth g) hs)
  = gen_done (hs ≫= λ e,
      permission_block (yielded (_iter_descendants depth g (id (target e)))) e).
Proof.
  induction 1 as [|e hs He _ IH]; [done|].
  cbn [map foldr]. rewrite IH. unfold gen_seq, block_run. simpl. by rewrite He.
Qed.
End permissions.

(** ** The ancestor walk *)

Lemma NoDup_fmap_elem_inj {A B} (f : A → B) (l : list A) x y :
  NoDup (f <$> l) → x ∈ l → y ∈ l → f x = f y → x = y.
Proof.
  induction l as [|a l IH]; [by intros _ ?%elem_of_nil|].
  rewrite fmap_cons, NoDup_cons.
  intros [Ha Hnd] [->|Hx]%elem_of_cons [->|Hy]%elem_of_cons Heq; auto.
  - destruct Ha. rewrite Heq. by apply list_elem_of_fmap_2.
  - destruct Ha. rewrite <-Heq. by apply list_elem_of_fmap_2.
Qed.

Lemma tc_first_step {A} (R : relation A) x y : tc R x y → ∃ z, R x z.
Proof. destruct 1; eauto. Qed.

(** The fields of the loop invariant, as hypotheses. *)
Ltac unpack_inv H :=
  pose proof (inv_emitted _ _ _ _ _ _ H) as Hemitted;
  pose proof (inv_trace _ _ _ _ _ _ H) as Htrace;
  pose proof (inv_queue _ _ _ _ _ _ H) as Hqueue;
  pose proof (inv_nodup _ _ _ _ _ _ H) as Hnodup;
  pose proof (inv_visited _ _ _ _ _ _ H) as Hvisited;
  pose proof (inv_reach _ _ _ _ _ _ H) as Hreach;
  pose proof (inv_sorted _ _ _ _ _ _ H) as Hsorted;
  pose proof (inv_front _ _ _ _ _ _ H) as Hfront;
  pose proof (inv_done _ _ _ _ _ _ H) as Hdone.

Section ancestor_walk.
Context (g : Graph).
Implicit Types (s : string) (st : bfs_state) (fuel : nat).

Lemma parents_parent_ids k p : p ∈ parents g k → id p ∈ parent_ids g.
Proof.
  intros (e & He & Hp & ->)%parents_elem. unfold parent_ids.
  apply elem_of_list_to_set, list_elem_of_fmap. exists e. split; [done|].
  apply list_elem_of_filter. eauto using index_get_index_edges.
Qed.

(** *** One iteration *)

(** The effect of the inner loop: the nodes it emits are exactly those
    whose id was not visited before, each once. *)
Lemma visit_parents_spec (ps : list Node) st :
  ∃ new : list Node,
    emitted (foldl visit_parent st ps) = emitted st ++ new
    ∧ queue (foldl visit_parent st ps) = queue st ++ map id new
    ∧ visited (foldl visit_parent st ps) = id_set new ∪ visited st
    ∧ NoDup (map id new)
    ∧ (∀ p, p ∈ new → (id p ∉ visited st) ∧ p ∈ ps)
    ∧ (∀ p, p ∈ ps → id p ∈ visited (foldl visit_parent st ps)).
Proof.
  revert st. induction ps as [|p ps IH]; intros st.
  { exists []. simpl. rewrite !app_nil_r.
    split_and!; try done.
    - set_solver.
    - constructor.
    - by intros ? ?%elem_of_nil.
    - by intros ? ?%elem_of_nil. }
  simpl. destruct (IH (visit_parent st p))
    as (new & HE & HQ & HV & Hnd & Hnew & Hall).
  unfold visit_parent in *.
  destruct (decide (id p ∈ visited st)) as [Hin|Hnin].
  - exists new. split_and!; try done.
    + intros q Hq. destruct (Hnew q Hq). split; [done|by right].
    + intros q [->|Hq]%elem_of_cons; [|by apply Hall].
      rewrite HV. set_solver.
  - simpl in *. exists (p :: new). rewrite HE, HQ, HV. simpl.
    rewrite <-!app_assoc. split_and!; try done.
    + set_solver.
    + constructor; [|done]. intros (q & Hid & Hq)%list_elem_of_fmap.
      destruct (Hnew q Hq) as [Hq' _]. rewrite <-Hid in Hq'. set_solver.
    + intros q [->|Hq]%elem_of_cons; [split; [done|left]|].
      destruct (Hnew q Hq) as [Hq' ?]. split; [set_solver|by right].
    + intros q [->|Hq]%elem_of_cons; [set_solver|].
      specialize (Hall q Hq). by rewrite HV in Hall.
Qed.

Lemma bfs_iteration_spec cur rest st :
  ∃ new : list Node,
    emitted (bfs_iteration g cur rest st) = emitted st ++ new
    ∧ queue (bfs_iteration g cur rest st) = rest ++ map id new
    ∧ visited (bfs_iteration g cur rest st) = id_set new ∪ visited st
    ∧ NoDup (map id new)
    ∧ (∀ p, p ∈ new → (id p ∉ visited st) ∧ p ∈ parents g cur)
    ∧ (∀ p, p ∈ parents g cur →
         id p ∈ visited st ∨ id p ∈ map id new).
Proof.
  unfold bfs_iteration.
  destruct (visit_parents_spec (yielded (iter_parents g cur))
              {| visited := visited st; queue := rest;
                 emitted := emitted st |})
    as (new & HE & HQ & HV & Hnd & Hnew & Hall).
  exists new. split_and!; try done.
  intros p Hp. specialize (Hall p Hp). rewrite HV in Hall. simpl in Hall.
  apply elem_of_union in Hall as [Hall|Hall]; [right|by left].
  by apply elem_of_list_to_set in Hall.
Qed.

(** *** Termination *)

(** The queue length plus the number of ids not visited yet drops by
    one at every iteration. *)
Lemma bfs_loop_terminates fuel st :
  length (queue st) + size (parent_ids g ∖ visited st) ≤ fuel →
  is_Some (bfs_loop fuel g st).
Proof.
  revert st. induction fuel as [|fuel IH]; intros st Hm.
  { destruct st as [V [|cur rest] E]; simpl in *; [eauto|lia]. }
  simpl. destruct (queue st) as [|cur rest] eqn:Hq; [eauto|].
  apply IH.
  destruct (bfs_iteration_spec cur rest st)
    as (new & _ & -> & -> & Hnd & Hnew & _).
  simpl in Hm. rewrite length_app, length_map.
  assert (Hsub : id_set new ⊆ parent_ids g ∖ visited st).
  { intros x (p & -> & Hp)%elem_of_list_to_set%list_elem_of_fmap.
    destruct (Hnew p Hp). apply elem_of_difference.
    eauto using parents_parent_ids. }
  assert (Hsize : size (id_set new) = length new).
  { unfold id_set. by rewrite size_list_to_set, length_map. }
  assert (Heq : parent_ids g ∖ (id_set new ∪ visited st)
                = (parent_ids g ∖ visited st) ∖ id_set new).
  { clear. set_solver. }
  rewrite Heq, size_difference by done.
  pose proof (subseteq_size _ _ Hsub). lia.
Qed.

Lemma bfs_loop_stable fuel n st out :
  bfs_loop fuel g st = Some out → bfs_loop (fuel + n) g st = Some out.
Proof.
  revert st. induction fuel as [|fuel IH]; intros st; simpl.
  - destruct (queue st) eqn:Hq; [|done]. intros [= <-].
    destruct n; simpl; by rewrite Hq.
  - destruct (queue st) eqn:Hq; [done|]. apply IH.
Qed.

Lemma iter_resource_hierarchy_stable s fuel n out :
  iter_resource_hierarchy fuel g s = Some out →
  iter_resource_hierarchy (fuel + n) g s = Some out.
Proof. apply bfs_loop_stable. Qed.

Lemma iter_resource_hierarchy_total s :
  ∃ out, ∀ n, iter_resource_hierarchy (hierarchy_fuel g + n) g s = Some out.
Proof.
  unfold iter_resource_hierarchy, hierarchy_fuel.
  destruct (bfs_loop_terminates (S (size (parent_ids g)))
              {| visited := ∅; queue := [s]; emitted := [] |}) as [out Hout].
  { simpl. rewrite difference_empty_L. lia. }
  exists out. intros n. by apply bfs_loop_stable.
Qed.

(** *** The invariant *)

Lemma bfs_inv_init s :
  bfs_inv g s {| visited := ∅; queue := [s]; emitted := [] |} [] [] [(s, 0)].
Proof.
  split; simpl; try done.
  - constructor.
  - intros ? ? ?%elem_of_nil. done.
  - repeat constructor.
  - intros ? ? ? _ ? ? ?%elem_of_nil. done.
  - intros ? ? ?%elem_of_nil. done.
Qed.

(** Every queue entry, popped or not, is reachable in as many steps as
    its level says. *)
Lemma bfs_inv_entry_reach s st T D Qp y l :
  bfs_inv g s st T D Qp → (y, l) ∈ D ++ Qp → nsteps (parent_step g) l s y.
Proof.
  intros Hinv. unpack_inv Hinv. rewrite <-Htrace.
  intros [Heq|Hin]%elem_of_cons.
  - injection Heq as -> ->. constructor.
  - apply list_elem_of_fmap in Hin as ([p l'] & Heq & Hin).
    injection Heq as -> ->. by apply Hreach.
Qed.

(** One iteration keeps the invariant: the popped entry moves to the
    done part, the nodes it discovers enter one level higher. *)
Lemma bfs_inv_step s st T D y lh Qrest rest :
  bfs_inv g s st T D ((y, lh) :: Qrest) →
  queue st = y :: rest →
  ∃ new,
    emitted (bfs_iteration g y rest st) = emitted st ++ new
    ∧ bfs_inv g s (bfs_iteration g y rest st)
        (T ++ map (λ p, (p, S lh)) new)
        (D ++ [(y, lh)])
        (Qrest ++ map (λ p, (id p, S lh)) new).
Proof.
  intros Hinv Hq. unpack_inv Hinv.
  destruct (bfs_iteration_spec y rest st)
    as (new & HE & HQ & HV & Hnd & Hnew & Hall).
  exists new. split; [done|].
  rewrite Hq in Hqueue. simpl in Hqueue. injection Hqueue as Hqueue.
  assert (Hy : nsteps (parent_step g) lh s y).
  { eapply bfs_inv_entry_reach; [done|].
    apply elem_of_app. right. left. }
  assert (Hlevels : ∀ l, l ∈ (D ++ (y, lh) :: Qrest).*2 → l ≤ S lh).
  { rewrite <-Htrace. simpl.
    intros l [->|Hl]%elem_of_cons; [lia|].
    apply list_elem_of_fmap in Hl as ([y' l'] & -> & Hl).
    apply list_elem_of_fmap in Hl as ([p l''] & Heq & Hl).
    injection Heq as -> ->. simpl. by eapply Hfront. }
  assert (Hassoc : (D ++ [(y, lh)]) ++ Qrest ++ map (λ p, (id p, S lh)) new
                   = (D ++ (y, lh) :: Qrest) ++ map (λ p, (id p, S lh)) new).
  { by rewrite <-!app_assoc. }
  split.
  - rewrite HE, Hemitted, fmap_app. f_equal.
    rewrite <-list_fmap_compose. by rewrite list_fmap_id.
  - rewrite Hassoc, <-Htrace, map_app. simpl.
    f_equal. f_equal. by rewrite map_map.
  - rewrite HQ, fmap_app, Hqueue. f_equal.
    by rewrite <-list_fmap_compose.
  - rewrite HE, map_app. apply NoDup_app. split_and!; [done| |done].
    intros x Hx (p & -> & Hp)%list_elem_of_fmap.
    destruct (Hnew p Hp) as [Hnv _]. apply Hnv.
    rewrite Hvisited. by apply elem_of_list_to_set.
  - rewrite HV, HE, Hvisited. unfold id_set.
    rewrite map_app, list_to_set_app_L. set_solver.
  - intros p l [Hin|Hin]%elem_of_app; [by apply Hreach|].
    apply list_elem_of_fmap in Hin as (q & Heq & Hq'). injection Heq as -> ->.
    split; [lia|]. eapply nsteps_r; [done|].
    unfold parent_step. apply list_elem_of_fmap. exists q. split; [done|].
    by apply Hnew.
  - rewrite Hassoc, fmap_app. apply StronglySorted_app. split_and!.
    + intros l1 l2 Hl1 Hl2.
      apply list_elem_of_fmap in Hl2 as ([? ?] & -> & Hl2).
      apply list_elem_of_fmap in Hl2 as (? & Heq & _). injection Heq as -> ->.
      simpl. auto.
    + done.
    + rewrite <-list_fmap_compose.
      clear. induction new as [|p new IH]; simpl; constructor; [done|].
      apply Forall_forall. intros l (? & -> & _)%list_elem_of_fmap. done.
  - intros y2 l2 rest2 Hhead p l Hin.
    assert (lh ≤ l2) as Hle.
    { destruct Qrest as [|[y' l'] Qrest']; simpl in Hhead.
      - destruct new as [|q new']; [done|]. simpl in Hhead.
        injection Hhead as _ <- _. lia.
      - injection Hhead as _ <- _.
        rewrite fmap_app in Hsorted.
        apply StronglySorted_app in Hsorted as (_ & _ & Hs).
        simpl in Hs. apply StronglySorted_cons in Hs as [Hs _].
        rewrite Forall_forall in Hs. apply Hs. left. }
    apply elem_of_app in Hin as [Hin|Hin].
    + assert (l ≤ S lh) by (by eapply Hfront). lia.
    + apply list_elem_of_fmap in Hin as (q & Heq & _).
      injection Heq as -> ->. lia.
  - intros y' l' [Hin|Hin]%elem_of_app p Hp.
    + destruct (Hdone y' l' Hin p Hp) as (p' & lp & ? & ? & ?).
      exists p', lp. split_and!; [|done..]. apply elem_of_app. by left.
    + apply list_elem_of_singleton in Hin. injection Hin as -> ->.
      destruct (Hall p Hp) as [Hv|Hn].
      * rewrite Hvisited in Hv.
        apply elem_of_list_to_set, list_elem_of_fmap in Hv as (p' & Hid & Hp').
        rewrite Hemitted in Hp'.
        apply list_elem_of_fmap in Hp' as ([p'' lp] & -> & Hp').
        exists p'', lp. split_and!; [by apply elem_of_app; left|done|].
        by eapply Hfront.
      * apply list_elem_of_fmap in Hn as (p' & Hid & Hp').
        exists p', (S lh). split_and!; [|done|lia].
        apply elem_of_app. right. apply list_elem_of_fmap. eauto.
Qed.

(** A walk that finishes leaves the invariant with an empty queue. *)
Lemma bfs_loop_inv s fuel st T D Qp out :
  bfs_inv g s st T D Qp →
  bfs_loop fuel g st = Some out →
  ∃ T' D',
    bfs_inv g s {| visited := id_set out; queue := []; emitted := out |}
      T' D' [].
Proof.
  assert (Hstop : ∀ st T D Qp,
    bfs_inv g s st T D Qp → queue st = [] →
    bfs_inv g s {| visited := id_set (emitted st); queue := [];
                   emitted := emitted st |} T D []).
  { clear. intros st T D Qp Hinv Hq. unpack_inv Hinv.
    rewrite Hq in Hqueue. symmetry in Hqueue.
    apply fmap_nil_inv in Hqueue as ->.
    destruct st as [V Q E]. simpl in *. by subst. }
  revert st T D Qp. induction fuel as [|fuel IH]; intros st T D Qp Hinv; simpl.
  - destruct (queue st) as [|cur rest] eqn:Hq; [|done]. intros [= <-]. eauto.
  - destruct (queue st) as [|cur rest] eqn:Hq.
    { intros [= <-]. eauto. }
    pose proof (inv_queue _ _ _ _ _ _ Hinv) as HQp. rewrite Hq in HQp.
    destruct Qp as [|[y lh] Qrest]; [done|]. simpl in HQp.
    injection HQp as <- _.
    destruct (bfs_inv_step _ _ _ _ _ _ _ _ Hinv Hq) as (new & _ & Hinv').
    intros Hrun. eapply IH; eauto.
Qed.

(** What the invariant says about a finished walk: the levels of the
    emitted nodes never decrease, each node is reachable in as many
    steps as its level, and each id reachable in [n] steps was emitted
    at a level not above [n]. *)
Lemma iter_resource_hierarchy_inv s fuel out :
  iter_resource_hierarchy fuel g s = Some out →
  ∃ T, out = T.*1
    ∧ NoDup (map id out)
    ∧ StronglySorted le (T.*2)
    ∧ (∀ p l, (p, l) ∈ T → 1 ≤ l ∧ nsteps (parent_step g) l s (id p))
    ∧ (∀ n x, nsteps (parent_step g) (S n) s x →
         ∃ p l, (p, l) ∈ T ∧ id p = x ∧ l ≤ S n).
Proof.
  intros Hrun. unfold iter_resource_hierarchy in Hrun.
  destruct (bfs_loop_inv _ _ _ _ _ _ _ (bfs_inv_init s) Hrun)
    as (T & D & Hinv).
  unpack_inv Hinv. rewrite app_nil_r in Htrace, Hsorted.
  exists T. split_and!; try done.
  - rewrite <-Htrace in Hsorted. simpl in Hsorted.
    apply StronglySorted_cons in Hsorted as [_ Hs].
    by rewrite <-list_fmap_compose in Hs.
  - intros n. induction n as [|n IHn]; intros x.
    + intros (p & -> & Hp)%nsteps_once_inv%list_elem_of_fmap.
      apply (Hdone s 0); [|done]. rewrite <-Htrace. left.
    + intros (y & (q & lq & Hq & <- & Hle)%IHn & Hstep)%nsteps_inv_r.
      apply list_elem_of_fmap in Hstep as (p & -> & Hp).
      destruct (Hdone (id q) lq) with (p := p) as (p' & lp & ? & ? & ?);
        [|done|].
      * rewrite <-Htrace. right. apply list_elem_of_fmap. by exists (q, lq).
      * exists p', lp. split_and!; [done..|lia].
Qed.

(** What the ancestor walk yields: it finishes, no id occurs twice, the
    ids are those reachable by at least one step up, and a node never
    comes after one that is strictly farther from the start. *)
Lemma ancestor_walk_correct s :
  ∃ out,
    (∀ n, iter_resource_hierarchy (hierarchy_fuel g + n) g s = Some out)
    ∧ NoDup (map id out)
    ∧ (∀ x, x ∈ map id out ↔ tc (parent_step g) s x)
    ∧ (∀ l1 a l2 b l3 n,
         out = l1 ++ a :: l2 ++ b :: l3 →
         nsteps (parent_step g) (S n) s (id b) →
         ∃ m, m ≤ n ∧ nsteps (parent_step g) (S m) s (id a)).
Proof.
  destruct (iter_resource_hierarchy_total s) as [out Hout].
  exists out. split; [done|].
  destruct (iter_resource_hierarchy_inv _ _ _ (Hout 0))
    as (T & -> & Hnd & Hsorted & Hreach & Hmin).
  split_and!.
  - done.
  - intros x. rewrite tc_nsteps. split.
    + intros (p & -> & ([p' l] & -> & Hp)%list_elem_of_fmap)%list_elem_of_fmap.
      destruct (Hreach _ _ Hp). exists l. split; [lia|done].
    + intros (n & Hn & Hsteps). destruct n as [|n]; [lia|].
      destruct (Hmin _ _ Hsteps) as (p & l & Hp & <- & _).
      apply list_elem_of_fmap. exists p. split; [done|].
      apply list_elem_of_fmap. by exists (p, l).
  - intros l1 a l2 b l3 n HT Hsteps.
    apply fmap_app_inv in HT as (T1 & T' & -> & HT & ->). symmetry in HT.
    apply fmap_cons_inv in HT as ([a' la] & T2' & -> & HT & ->). simpl in *.
    symmetry in HT.
    apply fmap_app_inv in HT as (T2 & T3' & -> & HT & ->). symmetry in HT.
    apply fmap_cons_inv in HT as ([b' lb] & T3 & -> & -> & ->). simpl in *.
    set (T := T1 ++ (a', la) :: T2 ++ (b', lb) :: T3) in *.
    assert (Ha : (a', la) ∈ T) by (unfold T; set_solver).
    assert (Hb : (b', lb) ∈ T) by (unfold T; set_solver).
    destruct (Hmin _ _ Hsteps) as (p & l & Hp & Hid & Hle).
    assert (Hpb : (p, l) = (b', lb)).
    { apply (NoDup_fmap_elem_inj (id ∘ fst) T); [|done..].
      by rewrite list_fmap_compose. }
    injection Hpb as -> ->.
    assert (la ≤ lb).
    { unfold T in Hsorted. rewrite fmap_app, fmap_cons in Hsorted.
      apply StronglySorted_app in Hsorted as (_ & _ & Hs).
      apply StronglySorted_cons in Hs as [Hs _].
      rewrite Forall_forall in Hs. apply Hs.
      rewrite fmap_app, fmap_cons. set_solver. }
    destruct (Hreach _ _ Ha) as [Hla Hsa].
    destruct la as [|la]; [lia|]. exists la. split; [lia|done].
Qed.
End ancestor_walk.

(** ** Reachability along the hierarchy *)

Lemma children_elem g k c :
  c ∈ children g k ↔
  ∃ e, e ∈ index_get k (out_edges g) ∧ is_parent_of e ∧ c = target e.
Proof.
  unfold children. rewrite iter_children_eq. simpl.
  rewrite list_elem_of_fmap. split.
  - intros (e & -> & [? ?]%list_elem_of_filter). eauto.
  - intros (e & ? & ? & ->). exists e. split; [done|].
    by apply list_elem_of_filter.
Qed.

Lemma children_stored g k c :
  graph_wf g → c ∈ children g k → is_Some (nodes g !! id c).
Proof.
  intros Hwf (e & He & _ & ->)%children_elem.
  by destruct (wf_out_edge g Hwf k e He).
Qed.

Lemma child_step_children g k c : c ∈ children g k → child_step g k (id c).
Proof. intros Hc. unfold child_step. apply list_elem_of_fmap. eauto. Qed.

Lemma tc_inv_l {A} (R : relation A) x z :
  tc R x z → ∃ y, R x y ∧ rtc R y z.
Proof.
  destruct 1 as [x z H|x y z H Htc].
  - exists z. split; [done|constructor].
  - exists y. split; [done|by apply tc_rtc].
Qed.

Lemma tc_converse {A} (R S : relation A) :
  (∀ a b, R a b → S b a) → ∀ a b, tc R a b → tc S b a.
Proof.
  intros HRS a b. induction 1 as [a b H|a y b H _ IH].
  - by apply tc_once, HRS.
  - eapply tc_r; [exact IH|by apply HRS].
Qed.

Lemma tc_mono {A} (R S : relation A) :
  (∀ a b, R a b → S a b) → ∀ a b, tc R a b → tc S a b.
Proof.
  intros HRS a b. induction 1 as [a b H|a y b H _ IH].
  - by apply tc_once, HRS.
  - eapply tc_l; [by apply HRS|exact IH].
Qed.

Lemma acyclic_acyclic_below g k : acyclic g → acyclic_below g k.
Proof. intros Hacyc x _. apply Hacyc. Qed.

Lemma acyclic_below_child g k c :
  acyclic_below g k → child_step g k c → acyclic_below g c.
Proof. intros Hk Hstep x Hx. apply Hk. by eapply rtc_l. Qed.

(** ** Generators, continued *)

Lemma yielded_gen_for_elem {A B} (l : list A) e (body : A → gen B) b :
  b ∈ yielded (gen_for (mkGen l e) body) →
  ∃ a, a ∈ l ∧ b ∈ yielded (body a).
Proof.
  induction l as [|a l IH]; [by intros ?%elem_of_nil|].
  rewrite gen_for_cons. unfold gen_seq at 1.
  destruct (raised (body a)) eqn:Ha.
  - intros Hb. exists a. split; [left|done].
  - simpl. intros [Hb|Hb]%elem_of_app.
    + exists a. split; [left|done].
    + destruct (IH Hb) as (a' & ? & ?). exists a'. split; [by right|done].
Qed.

Lemma raised_gen_for_ext {A B C} (l : list A) e
    (body : A → gen B) (body' : A → gen C) :
  Forall (λ a, raised (body a) = raised (body' a)) l →
  raised (gen_for (mkGen l e) body) = raised (gen_for (mkGen l e) body').
Proof.
  induction 1 as [|a l Ha _ IH]; [done|].
  by rewrite !gen_for_cons, !raised_gen_seq, Ha, IH.
Qed.

(** ** The descendant traversal, continued *)

Section descendants_more.
Context (g : Graph).
Implicit Types (k x : string) (depth : nat).

(** Whatever the traversal yields, even when it does not complete, lies
    strictly below the starting id. *)
Lemma _iter_descendants_sound depth k n :
  n ∈ yielded (_iter_descendants depth g k) → tc (child_step g) k (id n).
Proof.
  revert k n. induction depth as [|d IH]; intros k n.
  { by intros ?%elem_of_nil. }
  rewrite _iter_descendants_S.
  intros (c & Hc & Hn)%yielded_gen_for_elem.
  apply child_step_children in Hc.
  unfold gen_seq in Hn. simpl in Hn.
  apply elem_of_cons in Hn as [->|Hn]; [by apply tc_once|].
  eapply tc_l; [exact Hc|]. by apply IH.
Qed.

(** The ids of a pre-order listing: the roots and everything below. *)
Lemma preorder_elem roots l :
  preorder g roots l →
  ∀ x, x ∈ map id l ↔
       ∃ c, c ∈ roots ∧ (x = id c ∨ tc (child_step g) (id c) x).
Proof.
  induction 1 as [|c siblings below rest _ IHb _ IHr]; intros x.
  { split; [by intros ?%elem_of_nil|by intros (c & ?%elem_of_nil & _)]. }
  rewrite map_cons, elem_of_cons, map_app, elem_of_app, IHb, IHr. split.
  - intros [->|[(c' & Hc' & Hx)|(c' & Hc' & Hx)]].
    + exists c. split; [left|by left].
    + exists c. split; [left|]. right.
      apply child_step_children in Hc'.
      destruct Hx as [->|Hx]; [by apply tc_once|by eapply tc_l].
    + exists c'. split; [by right|done].
  - intros (c' & [->|Hc']%elem_of_cons & Hx).
    + destruct Hx as [->|Hx]; [by left|]. right. left.
      apply tc_inv_l in Hx as (y & Hstep & Hy).
      apply list_elem_of_fmap in Hstep as (c' & -> & Hc').
      exists c'. split; [done|]. apply rtc_tc in Hy as [<-|Hy]; [by left|by right].
    + right. right. eauto.
Qed.

(** A traversal that completes yields exactly what lies strictly below
    the starting id. *)
Lemma _iter_descendants_elem depth k x :
  raised (_iter_descendants depth g k) = None →
  x ∈ map id (yielded (_iter_descendants depth g k))
  ↔ tc (child_step g) k x.
Proof.
  intros Hok. apply _iter_descendants_preorder in Hok.
  rewrite (preorder_elem _ _ Hok). split.
  - intros (c & Hc%child_step_children & [->|Hx]);
      [by apply tc_once|by eapply tc_l].
  - intros (y & (c & -> & Hc)%list_elem_of_fmap & Hy)%tc_inv_l.
    exists c. split; [done|]. apply rtc_tc in Hy as [<-|Hy]; [by left|by right].
Qed.

(** A traversal that completes has met no cycle. *)
Lemma _iter_descendants_complete_acyclic depth k :
  raised (_iter_descendants depth g k) = None → acyclic_below g k.
Proof.
  revert k. induction depth as [|d IH]; intros k; [done|].
  rewrite _iter_descendants_S. intros [Hall _]%gen_for_raised_None.
  rewrite Forall_forall in Hall.
  assert (Hchild : ∀ y, child_step g k y → acyclic_below g y).
  { intros y (c & -> & Hc)%list_elem_of_fmap. apply IH.
    specialize (Hall c Hc). cbv beta in Hall.
    by rewrite raised_gen_seq in Hall. }
  intros x Hx Hcyc. apply rtc_tc in Hx as [<-|Hx].
  - apply tc_inv_l in Hcyc as (y & Hy & Hback).
    apply (Hchild y Hy y); [constructor|].
    eapply tc_rtc_l; [exact Hback|by apply tc_once].
  - apply tc_inv_l in Hx as (y & Hy & Hyx).
    by apply (Hchild y Hy x).
Qed.

(** With the strict ancestors [P] of [k] set aside, a depth exceeding
    the number of remaining keys of the outgoing index is enough when no
    cycle lies below [k]. *)
Lemma _iter_descendants_enough_below_from depth :
  ∀ (P : gset string) k,
    acyclic_below g k →
    (∀ p, p ∈ P → tc (child_step g) p k) →
    size (dom (out_edges g) ∖ P) < depth →
    raised (_iter_descendants depth g k) = None.
Proof.
  induction depth as [|d IH]; intros P k Hacyc HP Hsize; [lia|].
  rewrite _iter_descendants_S.
  destruct (raised (gen_for _ _)) as [x|] eqn:Hx; [|done].
  apply gen_for_raised_inv in Hx as [?|(c & Hc & Hr)]; [done|].
  cbv beta in Hr. rewrite raised_gen_seq in Hr. simpl in Hr.
  assert (Hk : k ∈ dom (out_edges g)) by eauto using children_nonempty_key.
  assert (HkP : k ∉ P).
  { intros Hin%HP. by apply (Hacyc k). }
  pose proof (child_step_children _ _ _ Hc) as Hstep.
  rewrite (IH ({[k]} ∪ P) (id c)) in Hr; [done| | |].
  - by eapply acyclic_below_child.
  - intros p [->%elem_of_singleton|Hp]%elem_of_union.
    + by apply tc_once.
    + eapply tc_r; eauto.
  - assert (size (dom (out_edges g) ∖ ({[k]} ∪ P))
            < size (dom (out_edges g) ∖ P)); [|lia].
    apply subset_size. clear -Hk HkP. set_solver.
Qed.

Lemma _iter_descendants_enough_below k n :
  acyclic_below g k →
  raised (_iter_descendants (S (size (out_edges g)) + n) g k) = None.
Proof.
  intros Hacyc.
  assert (H0 : raised (_iter_descendants (S (size (out_edges g))) g k) = None).
  { apply (_iter_descendants_enough_below_from _ ∅); [done| |].
    - intros p ?%not_elem_of_empty. done.
    - rewrite difference_empty_L, size_dom. lia. }
  by rewrite _iter_descendants_stable.
Qed.

(** A traversal that fails at some depth fails at every smaller one. *)
Lemma _iter_descendants_fails_below depth n k :
  raised (_iter_descendants (depth + n) g k) = Some RecursionError →
  raised (_iter_descendants depth g k) = Some RecursionError.
Proof.
  intros Hfail.
  destruct (raised (_iter_descendants depth g k)) as [x|] eqn:Hx.
  - apply _iter_descendants_raised in Hx. by subst.
  - rewrite _iter_descendants_stable in Hfail by done. congruence.
Qed.
End descendants_more.

(** ** Printing the tree *)

Lemma preorder_levels_preorder g l roots L :
  preorder_levels g l roots L → preorder g roots L.*1.
Proof.
  induction 1 as [|l c siblings below rest _ IHb _ IHr]; [constructor|].
  rewrite fmap_cons, fmap_app. simpl. by constructor.
Qed.

Lemma print_resource_tree_unfold g depth k sp :
  print_resource_tree (S depth) g k sp
  = match get_node g k with
    | None => gen_raise (NodeNotFoundError k)
    | Some node =>
        gen_seq (gen_yield (tree_line sp (id node)))
          (gen_for (gen_done (children g k))
             (λ child, print_resource_tree depth g (id child) (sp + 4)%Z))
    end.
Proof. rewrite <-iter_children_children. reflexivity. Qed.

(** Once the printer completes at some depth, more depth changes
    nothing. *)
Lemma print_resource_tree_stable_S g depth k sp :
  raised (print_resource_tree depth g k sp) = None →
  print_resource_tree (S depth) g k sp = print_resource_tree depth g k sp.
Proof.
  revert k sp. induction depth as [|d IH]; intros k sp; [done|].
  rewrite (print_resource_tree_unfold g (S d)), (print_resource_tree_unfold g d).
  destruct (get_node g k) as [node|]; [|done].
  rewrite raised_gen_seq. simpl. intros [Hall _]%gen_for_raised_None.
  f_equal. apply gen_for_ext. eapply Forall_impl; [exact Hall|].
  intros c Hc. by apply IH.
Qed.

Lemma print_resource_tree_stable g depth n k sp :
  raised (print_resource_tree depth g k sp) = None →
  print_resource_tree (depth + n) g k sp = print_resource_tree depth g k sp.
Proof.
  intros H. induction n as [|n IH].
  - by rewrite Nat.add_0_r.
  - rewrite Nat.add_succ_r, print_resource_tree_stable_S; [done|].
    by rewrite IH.
Qed.

Section print_tree.
Context (g : Graph) (Hwf : graph_wf g).
Implicit Types (k : string) (depth : nat) (sp : Z).

Lemma print_resource_tree_S depth k node sp :
  nodes g !! k = Some node →
  print_resource_tree (S depth) g k sp
  = gen_seq (gen_yield (tree_line sp k))
      (gen_for (gen_done (children g k))
         (λ child, print_resource_tree depth g (id child) (sp + 4)%Z)).
Proof using Hwf.
  intros Hk. rewrite print_resource_tree_unfold. unfold get_node.
  by rewrite Hk, (wf_node_key g Hwf k node Hk).
Qed.

(** The tree printer ends the way the descendant traversal of the same
    id does. *)
Lemma print_resource_tree_raised depth k sp :
  is_Some (nodes g !! k) →
  raised (print_resource_tree depth g k sp)
  = raised (_iter_descendants depth g k).
Proof using Hwf.
  revert k sp. induction depth as [|d IH]; intros k sp [node Hk]; [done|].
  rewrite (print_resource_tree_S _ _ node) by done.
  rewrite _iter_descendants_S, raised_gen_seq. simpl.
  apply raised_gen_for_ext, Forall_forall. intros c Hc.
  rewrite raised_gen_seq. simpl. apply IH. by eapply children_stored.
Qed.

(** When the descendant traversal completes, the printer prints the line
    of the root and then one line per descendant, in the same pre-order,
    each indented by its level. *)
Lemma print_resource_tree_run depth :
  ∀ k sp (l : nat),
    is_Some (nodes g !! k) →
    raised (_iter_descendants depth g k) = None →
    ∃ L, preorder_levels g (S l) (children g k) L
       ∧ L.*1 = yielded (_iter_descendants depth g k)
       ∧ print_resource_tree depth g k (sp + 4 * Z.of_nat l)
         = gen_done (tree_line (sp + 4 * Z.of_nat l) k :: map (line_at sp) L).
Proof using Hwf.
  induction depth as [|d IH]; intros k sp l [node Hk]; [done|].
  rewrite (print_resource_tree_S _ _ node) by done.
  rewrite _iter_descendants_S.
  assert (Hstored : ∀ c, c ∈ children g k → is_Some (nodes g !! id c))
    by eauto using children_stored.
  revert Hstored. generalize (children g k) as cs.
  assert (Hgoal : ∀ cs,
    (∀ c, c ∈ cs → is_Some (nodes g !! id c)) →
    raised (gen_for (gen_done cs)
              (λ child, gen_seq (gen_yield child)
                          (_iter_descendants d g (id child)))) = None →
    ∃ L, preorder_levels g (S l) cs L
       ∧ L.*1 = yielded (gen_for (gen_done cs)
                   (λ child, gen_seq (gen_yield child)
                               (_iter_descendants d g (id child))))
       ∧ gen_for (gen_done cs)
           (λ child, print_resource_tree d g (id child)
                       (sp + 4 * Z.of_nat l + 4)%Z)
         = gen_done (map (line_at sp) L)).
  { induction cs as [|c cs IHcs]; intros Hstored.
    { intros _. exists []. split_and!; [constructor|done..]. }
    unfold gen_done in *. rewrite !gen_for_cons, raised_gen_seq.
    destruct (raised (gen_seq (gen_yield c) (_iter_descendants d g (id c))))
      eqn:Hc; [done|].
    intros Hrest. rewrite raised_gen_seq in Hc. simpl in Hc.
    destruct IHcs as (Lr & Hpr & Hyr & Hrr);
      [intros; apply Hstored; by right|done|].
    destruct (IH (id c) sp (S l)) as (Lc & Hpc & Hyc & Hrc);
      [apply Hstored; left|done|].
    exists ((c, S l) :: Lc ++ Lr). split_and!.
    - by constructor.
    - rewrite yielded_gen_seq by (by rewrite raised_gen_seq).
      rewrite yielded_gen_seq by done. simpl.
      by rewrite fmap_app, Hyc, Hyr.
    - rewrite Hrr.
      replace (sp + 4 * Z.of_nat l + 4)%Z with (sp + 4 * Z.of_nat (S l))%Z
        by lia.
      rewrite Hrc. unfold gen_seq. simpl.
      by rewrite map_app. }
  intros cs Hstored Hok.
  destruct (Hgoal cs Hstored Hok) as (L & Hp & Hy & Hr).
  exists L. split_and!; [done..|].
  rewrite Hr. reflexivity.
Qed.
End print_tree.

(** ** The two directions of the hierarchy *)

Lemma build_index_out cs k :
  index_get k (out_edges (build cs)) = filter (source_is k) (accepted_edges cs).
Proof. unfold build, accepted_edges. by rewrite edge_log_out. Qed.

Lemma build_index_in cs k :
  index_get k (in_edges (build cs)) = filter (target_is k) (accepted_edges cs).
Proof. unfold build, accepted_edges. by rewrite edge_log_in. Qed.

(** An edge is indexed under its source id exactly when it is indexed
    under its target id. *)
Lemma build_index_converse cs e :
  e ∈ index_get (id (source e)) (out_edges (build cs))
  ↔ e ∈ index_get (id (target e)) (in_edges (build cs)).
Proof.
  rewrite build_index_out, build_index_in, !list_elem_of_filter.
  unfold source_is, target_is. naive_solver.
Qed.

Lemma child_step_edge g a b :
  child_step g a b ↔
  ∃ e, e ∈ index_get a (out_edges g) ∧ is_parent_of e ∧ id (target e) = b.
Proof.
  unfold child_step. rewrite list_elem_of_fmap. split.
  - intros (c & -> & (e & ? & ? & ->)%children_elem). eauto.
  - intros (e & ? & ? & <-). exists (target e). split; [done|].
    apply children_elem. eauto.
Qed.

Lemma parent_step_edge g a b :
  parent_step g a b ↔
  ∃ e, e ∈ index_get a (in_edges g) ∧ is_parent_of e ∧ id (source e) = b.
Proof.
  unfold parent_step. rewrite list_elem_of_fmap. split.
  - intros (c & -> & (e & ? & ? & ->)%parents_elem). eauto.
  - intros (e & ? & ? & <-). exists (source e). split; [done|].
    apply parents_elem. eauto.
Qed.

Lemma child_parent_step cs a b :
  child_step (build cs) a b ↔ parent_step (build cs) b a.
Proof.
  rewrite child_step_edge, parent_step_edge.
  pose proof (build_wf cs) as Hwf. split.
  - intros (e & He & Hp & <-).
    destruct (wf_out_edge _ Hwf _ _ He) as [<- _].
    exists e. split_and!; [|done..]. by apply build_index_converse.
  - intros (e & He & Hp & <-).
    destruct (wf_in_edge _ Hwf _ _ He) as [<- _].
    exists e. split_and!; [|done..]. by apply build_index_converse.
Qed.

Lemma tc_child_parent_step cs a b :
  tc (child_step (build cs)) a b ↔ tc (parent_step (build cs)) b a.
Proof.
  split; apply tc_converse; intros x y; by rewrite child_parent_step.
Qed.

(** ** Construction only adds *)

Lemma foldl_apply_call_out_prefix cs g k :
  index_get k (out_edges g)
    `prefix_of` index_get k (out_edges (foldl apply_call g cs)).
Proof. rewrite edge_log_out. by apply prefix_app_r. Qed.

Lemma foldl_apply_call_in_prefix cs g k :
  index_get k (in_edges g)
    `prefix_of` index_get k (in_edges (foldl apply_call g cs)).
Proof. rewrite edge_log_in. by apply prefix_app_r. Qed.

Lemma foldl_apply_call_child_step cs g a b :
  child_step g a b → child_step (foldl apply_call g cs) a b.
Proof.
  rewrite !child_step_edge. intros (e & He & Hp & <-).
  exists e. split_and!; [|done..].
  destruct (foldl_apply_call_out_prefix cs g a) as [l ->].
  apply elem_of_app. by left.
Qed.

Lemma foldl_apply_call_parent_step cs g a b :
  parent_step g a b → parent_step (foldl apply_call g cs) a b.
Proof.
  rewrite !parent_step_edge. intros (e & He & Hp & <-).
  exists e. split_and!; [|done..].
  destruct (foldl_apply_call_in_prefix cs g a) as [l ->].
  apply elem_of_app. by left.
Qed.

(** ** What the traversals depend on *)

Lemma _iter_descendants_children_ext g g' :
  (∀ k, children g k = children g' k) →
  ∀ depth k, _iter_descendants depth g k = _iter_descendants depth g' k.
Proof.
  intros Hch. induction depth as [|d IH]; intros k; [done|].
  rewrite !_iter_descendants_S, Hch.
  apply gen_for_ext, Forall_forall. intros c _. by rewrite IH.
Qed.

Lemma bfs_loop_parents_ext g g' :
  (∀ k, parents g k = parents g' k) →
  ∀ fuel st, bfs_loop fuel g st = bfs_loop fuel g' st.
Proof.
  intros Hp. induction fuel as [|fuel IH]; intros st; [done|].
  simpl. destruct (queue st) as [|cur rest]; [done|].
  rewrite IH. unfold bfs_iteration.
  change (yielded (iter_parents g cur)) with (parents g cur).
  change (yielded (iter_parents g' cur)) with (parents g' cur).
  by rewrite Hp.
Qed.

Lemma print_resource_tree_ext g g' :
  nodes g = nodes g' →
  (∀ k, iter_children g k = iter_children g' k) →
  ∀ depth k sp, print_resource_tree depth g k sp
                = print_resource_tree depth g' k sp.
Proof.
  intros Hn Hch. induction depth as [|d IH]; intros k sp; [done|].
  simpl. unfold get_node. rewrite Hn, Hch.
  destruct (nodes g' !! k) as [node|]; [|done].
  f_equal. destruct (iter_children g' k) as [l e].
  apply gen_for_ext, Forall_forall. intros c _. apply IH.
Qed.

Lemma iter_user_permissions_ext g g' k :
  nodes g !! k = nodes g' !! k →
  index_get k (out_edges g) = index_get k (out_edges g') →
  (∀ k, children g k = children g' k) →
  ∀ depth, iter_user_permissions depth g k = iter_user_permissions depth g' k.
Proof.
  intros Hn Ho Hch depth. unfold iter_user_permissions, get_node.
  rewrite Hn. destruct (nodes g' !! k) as [node|]; [|done].
  rewrite !iter_out_edges_eq, Ho.
  apply gen_for_ext, Forall_forall. intros e _.
  case_decide; [done|]. destruct (role e); [|done].
  by rewrite (_iter_descendants_children_ext g g' Hch).
Qed.

(** ** Role edges and the hierarchy *)

Lemma add_edge_index_out e g k :
  index_get k (out_edges (add_edge e g).1)
  = index_get k (out_edges g)
    ++ (if (add_edge e g).2 is None
        then filter (source_is k) [e] else []).
Proof.
  change (add_edge e g).1 with (foldl apply_call g [AddEdge e]).
  rewrite edge_log_out. simpl. rewrite app_nil_r.
  by destruct (add_edge e g).2.
Qed.

Lemma add_edge_index_in e g k :
  index_get k (in_edges (add_edge e g).1)
  = index_get k (in_edges g)
    ++ (if (add_edge e g).2 is None
        then filter (target_is k) [e] else []).
Proof.
  change (add_edge e g).1 with (foldl apply_call g [AddEdge e]).
  rewrite edge_log_in. simpl. rewrite app_nil_r.
  by destruct (add_edge e g).2.
Qed.

Lemma add_edge_role_children e g k :
  etype e = HAS_ROLE → children (add_edge e g).1 k = children g k.
Proof.
  intros He. unfold children. rewrite !iter_children_eq. simpl.
  rewrite add_edge_index_out, filter_app.
  assert (filter is_parent_of
            (if (add_edge e g).2 is None
             then filter (source_is k) [e] else []) = []) as ->.
  { destruct (add_edge e g).2; [done|].
    rewrite filter_cons, filter_nil. case_decide; [|done].
    rewrite filter_cons, filter_nil. rewrite decide_False; [done|].
    unfold is_parent_of. congruence. }
  by rewrite app_nil_r.
Qed.

Lemma add_edge_role_parents e g k :
  etype e = HAS_ROLE → parents (add_edge e g).1 k = parents g k.
Proof.
  intros He. unfold parents. rewrite !iter_parents_eq. simpl.
  rewrite add_edge_index_in, filter_app.
  assert (filter is_parent_of
            (if (add_edge e g).2 is None
             then filter (target_is k) [e] else []) = []) as ->.
  { destruct (add_edge e g).2; [done|].
    rewrite filter_cons, filter_nil. case_decide; [|done].
    rewrite filter_cons, filter_nil. rewrite decide_False; [done|].
    unfold is_parent_of. congruence. }
  by rewrite app_nil_r.
Qed.

Lemma children_iter_children g g' k :
  children g k = children g' k → iter_children g k = iter_children g' k.
Proof. rewrite !iter_children_children. by intros ->. Qed.

Lemma add_node_children n g k : children (add_node n g) k = children g k.
Proof.
  unfold children. by rewrite !iter_children_eq, add_node_out_edges.
Qed.

Lemma add_node_parents n g k : parents (add_node n g) k = parents g k.
Proof.
  unfold parents. by rewrite !iter_parents_eq, add_node_in_edges.
Qed.

(** ** Permission resolution, continued *)

Lemma role_edges_eq g k :
  role_edges g k = filter is_has_role (index_get k (out_edges g)).
Proof. unfold role_edges. by rewrite iter_out_edges_eq. Qed.

Lemma iter_user_permissions_complete depth g k :
  is_Some (nodes g !! k) →
  (∀ e, e ∈ role_edges g k → is_Some (role e)) →
  (∀ e, e ∈ role_edges g k →
        raised (_iter_descendants depth g (id (target e))) = None) →
  iter_user_permissions depth g k
  = gen_done (role_edges g k ≫= λ e,
      permission_block (yielded (_iter_descendants depth g (id (target e)))) e).
Proof.
  intros [nd Hnd] Hrole Hall.
  rewrite (iter_user_permissions_stored _ _ _ nd) by done.
  rewrite permissions_loop_blocks.
  - rewrite <-role_edges_eq. apply permission_blocks_complete.
    by apply Forall_forall.
  - intros e He Hhr. apply Hrole. rewrite role_edges_eq.
    by apply list_elem_of_filter.
Qed.

Lemma permission_block_elem descendants e p :
  p ∈ permission_block descendants e ↔
  ∃ r, role e = Some r
     ∧ (p = entry_for r (target e)
        ∨ ∃ n, n ∈ descendants ∧ p = entry_for r n).
Proof.
  unfold permission_block. destruct (role e) as [r|].
  - rewrite elem_of_cons, list_elem_of_fmap. split.
    + intros [->|(n & -> & Hn)]; exists r; eauto.
    + intros (r' & [= <-] & [->|(n & Hn & ->)]); eauto.
  - split; [by intros ?%elem_of_nil|by intros (r & ? & _)].
Qed.

(** Every entry of the listing, complete or not, comes from a HAS_ROLE
    edge of the identity and names the target of that edge or a node
    below it. *)
Lemma iter_user_permissions_sound depth g k p :
  p ∈ yielded (iter_user_permissions depth g k) →
  ∃ e, e ∈ role_edges g k ∧ role e = Some (prole p)
     ∧ (resource_id p = id (target e)
        ∨ tc (child_step g) (id (target e)) (resource_id p)).
Proof.
  unfold iter_user_permissions, get_node.
  destruct (nodes g !! k) as [nd|]; [|by intros ?%elem_of_nil].
  rewrite iter_out_edges_eq.
  intros (e & He & Hp)%yielded_gen_for_elem.
  destruct (decide (etype e ≠ HAS_ROLE)) as [|Hty];
    [by apply elem_of_nil in Hp|].
  apply dec_stable in Hty.
  destruct (role e) as [r|] eqn:Hr; [|by apply elem_of_nil in Hp].
  exists e. rewrite role_edges_eq, list_elem_of_filter.
  unfold gen_seq in Hp. simpl in Hp. rewrite gen_for_map in Hp. simpl in Hp.
  apply elem_of_cons in Hp as [->|(n & -> & Hn)%list_elem_of_fmap]; simpl.
  - split_and!; [done..|by left].
  - split_and!; [done..|]. right. by eapply _iter_descendants_sound.
Qed.

(** ** Generators, continued *)

Lemma gen_seq_nil_r {A} (s : gen A) : gen_seq s (gen_done []) = s.
Proof.
  destruct s as [l [x|]]; [done|]. unfold gen_seq. simpl.
  by rewrite app_nil_r.
Qed.

Lemma gen_seq_assoc {A} (s1 s2 s3 : gen A) :
  gen_seq (gen_seq s1 s2) s3 = gen_seq s1 (gen_seq s2 s3).
Proof.
  destruct s1 as [l1 [x1|]], s2 as [l2 [x2|]]; try done.
  unfold gen_seq. simpl. by rewrite app_assoc.
Qed.

Lemma gen_for_app {A B} (l1 l2 : list A) e (body : A → gen B) :
  gen_for (mkGen (l1 ++ l2) e) body
  = gen_seq (gen_for (gen_done l1) body) (gen_for (mkGen l2 e) body).
Proof.
  unfold gen_done. induction l1 as [|a l1 IH].
  - symmetry. apply gen_seq_nil_l.
  - simpl app. by rewrite !gen_for_cons, IH, gen_seq_assoc.
Qed.

(** ** Node and edge insertion, continued *)

Lemma Graph_eq g g' :
  nodes g = nodes g' → out_edges g = out_edges g' → in_edges g = in_edges g' →
  g = g'.
Proof. destruct g, g'; simpl. by intros -> -> ->. Qed.

Lemma add_edge_accepted_iff e g :
  (add_edge e g).2 = None
  ↔ is_Some (nodes g !! id (source e)) ∧ is_Some (nodes g !! id (target e)).
Proof.
  split.
  - intros H. add_edge_cases e g; simpl in H; try done; eauto.
  - intros [? ?]. by rewrite add_edge_accepted.
Qed.

Lemma add_node_comm a b g :
  id a ≠ id b → add_node a (add_node b g) = add_node b (add_node a g).
Proof.
  intros Hne. apply Graph_eq.
  - apply map_eq. intros k. rewrite !add_node_nodes.
    destruct (nodes g !! k); [done|].
    repeat case_decide; congruence.
  - by rewrite !add_node_out_edges.
  - by rewrite !add_node_in_edges.
Qed.

Lemma add_edge_add_node_comm n e g :
  (add_edge e g).2 = None →
  add_edge e (add_node n g) = (add_node n (add_edge e g).1, None).
Proof.
  intros [Hs Ht]%add_edge_accepted_iff.
  rewrite (add_edge_accepted e g) by done.
  rewrite add_edge_accepted by auto using add_node_stored.
  f_equal. apply Graph_eq; simpl.
  - apply map_eq. intros k. by rewrite !add_node_nodes.
  - by rewrite !add_node_out_edges.
  - by rewrite !add_node_in_edges.
Qed.

Lemma add_edge_after_endpoints e g :
  (add_edge e (add_node (target e) (add_node (source e) g))).2 = None.
Proof.
  apply add_edge_accepted_iff. split.
  - apply add_node_stored. rewrite add_node_nodes.
    destruct (nodes g !! id (source e)); [eauto|].
    rewrite decide_True by done. eauto.
  - rewrite add_node_nodes.
    destruct (nodes _ !! id (target e)); [eauto|].
    rewrite decide_True by done. eauto.
Qed.

(** The node stored under an id is the first one registered with it. *)
Lemma foldl_apply_call_nodes cs g k :
  nodes (foldl apply_call g cs) !! k
  = match nodes g !! k with
    | Some m => Some m
    | None => head (filter (λ n, id n = k) (node_log cs))
    end.
Proof.
  revert g. induction cs as [|c cs IH]; intros g.
  { simpl. by destruct (nodes g !! k). }
  simpl foldl. rewrite IH. destruct c as [n|e]; simpl.
  - rewrite add_node_nodes, filter_cons.
    destruct (nodes g !! k); [done|]. by case_decide.
  - by rewrite add_edge_nodes.
Qed.

Lemma iter_parents_parents g k : iter_parents g k = gen_done (parents g k).
Proof. unfold parents. by rewrite iter_parents_eq. Qed.

Lemma parents_stored g k p :
  graph_wf g → p ∈ parents g k → is_Some (nodes g !! id p).
Proof.
  intros Hwf (e & He & _ & ->)%parents_elem.
  by destruct (wf_in_edge g Hwf k e He).
Qed.

Lemma tc_last_step {A} (R : relation A) x z : tc R x z → ∃ y, R y z.
Proof. induction 1; eauto. Qed.

Lemma child_step_stored g a b :
  graph_wf g → child_step g a b → is_Some (nodes g !! b).
Proof.
  intros Hwf (c & -> & Hc)%list_elem_of_fmap. by eapply children_stored.
Qed.

Lemma tc_child_step_stored g a b :
  graph_wf g → tc (child_step g) a b → is_Some (nodes g !! b).
Proof.
  intros Hwf (y & Hy)%tc_last_step. by eapply child_step_stored.
Qed.

(** ** The queue of the ancestor walk *)

Lemma bfs_popped_spec g fuel st out :
  bfs_loop fuel g st = Some out →
  ∃ new, out = emitted st ++ new
       ∧ bfs_popped fuel g st = queue st ++ map id new.
Proof.
  revert st. induction fuel as [|fuel IH]; intros st; simpl.
  - destruct (queue st) as [|cur rest]; [|done]. intros [= <-].
    exists []. by rewrite app_nil_r.
  - destruct (queue st) as [|cur rest].
    + intros [= <-]. exists []. by rewrite app_nil_r.
    + intros (new' & -> & ->)%IH.
      destruct (bfs_iteration_spec g cur rest st) as (new & -> & -> & _).
      exists (new ++ new'). rewrite map_app, !app_assoc. done.
Qed.

Lemma hierarchy_popped_spec g fuel s out :
  iter_resource_hierarchy fuel g s = Some out →
  hierarchy_popped fuel g s = s :: map id out.
Proof.
  intros (new & -> & Hp)%bfs_popped_spec. exact Hp.
Qed.

(** ** Methods with [self] threaded through *)

Lemma seq_pure {A} (first second : method (gen A)) r1 r2 self :
  first self = (r1, self) → second self = (r2, self) →
  seq first second self = (gen_seq r1 r2, self).
Proof.
  intros H1 H2. unfold seq. rewrite H1.
  unfold gen_seq. destruct (raised r1); [done|]. by rewrite H2.
Qed.

Lemma for_each_pure {A B} (xs : list A) (body : A → method (gen B))
    (f : A → gen B) ending self :
  (∀ x, x ∈ xs → body x self = (f x, self)) →
  for_each xs body ending self
  = (foldr (λ a rest, gen_seq (f a) rest) ending xs, self).
Proof.
  induction xs as [|x xs IH]; intros Hbody; [done|].
  simpl. apply seq_pure.
  - apply Hbody. left.
  - apply IH. intros y Hy. apply Hbody. by right.
Qed.

Lemma for_gen_pure {A B} (src : method (gen A)) (body : A → method (gen B))
    r (f : A → gen B) self :
  src self = (r, self) →
  (∀ x, x ∈ yielded r → body x self = (f x, self)) →
  for_gen src body self = (gen_for r f, self).
Proof.
  intros Hsrc Hbody. unfold for_gen, bind. rewrite Hsrc.
  by apply for_each_pure.
Qed.

Lemma iter_out_edges_st_eq k g :
  iter_out_edges_st k g = (iter_out_edges g k, g).
Proof.
  unfold iter_out_edges_st, bind, adjacency_get. simpl.
  by apply for_each_pure.
Qed.

Lemma iter_in_edges_st_eq k g :
  iter_in_edges_st k g = (iter_in_edges g k, g).
Proof.
  unfold iter_in_edges_st, bind, adjacency_get. simpl.
  by apply for_each_pure.
Qed.

Lemma iter_children_st_eq k g :
  iter_children_st k g = (iter_children g k, g).
Proof.
  unfold iter_children_st, bind, adjacency_get. simpl.
  apply for_each_pure. intros e _. by case_decide.
Qed.

Lemma iter_parents_st_eq k g :
  iter_parents_st k g = (iter_parents g k, g).
Proof.
  unfold iter_parents_st, bind, adjacency_get. simpl.
  apply for_each_pure. intros e _. by case_decide.
Qed.

Lemma _iter_descendants_st_eq depth k g :
  _iter_descendants_st depth k g = (_iter_descendants depth g k, g).
Proof.
  revert k. induction depth as [|d IH]; intros k; [done|].
  simpl. apply for_gen_pure; [apply iter_children_st_eq|].
  intros c _. apply seq_pure; [done|].
  by apply for_gen_pure.
Qed.

Lemma bfs_loop_st_eq fuel st g :
  bfs_loop_st fuel st g = (bfs_loop fuel g st, g).
Proof.
  revert st. induction fuel as [|fuel IH]; intros st; simpl.
  - by destruct (queue st).
  - destruct (queue st) as [|cur rest]; [done|].
    unfold bfs_iteration_st, bind. rewrite iter_parents_st_eq.
    unfold ret. apply IH.
Qed.

Lemma iter_user_permissions_st_eq depth k g :
  iter_user_permissions_st depth k g = (iter_user_permissions depth g k, g).
Proof.
  unfold iter_user_permissions_st, iter_user_permissions, bind.
  unfold get_node_st, nodes_get, get_node.
  destruct (nodes g !! k) as [nd|]; [|done].
  apply for_gen_pure; [apply iter_out_edges_st_eq|].
  intros e _. case_decide; [done|].
  destruct (role e) as [r|]; [|done].
  apply seq_pure; [done|].
  apply for_gen_pure; [apply _iter_descendants_st_eq|done].
Qed.

Lemma add_node_st_eq n g : add_node_st n g = (tt, add_node n g).
Proof.
  unfold add_node_st, add_node, bind, nodes_missing.
  destruct (nodes g !! id n) as [m|]; [done|].
  by rewrite bool_decide_eq_true_2.
Qed.

Lemma adjacency_getitem_append a k e g :
  (_ ⇐ adjacency_getitem a k ;; adjacency_append a k e) g
  = (tt, adjacency_write a (index_append k e (adjacency_read a g)) g).
Proof.
  unfold bind, adjacency_getitem, adjacency_append, index_append, index_get.
  destruct (adjacency_read a g !! k) as [l|] eqn:Hk; simpl.
  - f_equal. f_equal. apply map_eq. intros j.
    destruct (decide (k = j)) as [<-|Hne].
    + by rewrite lookup_alter_eq, lookup_insert_eq, Hk.
    + by rewrite lookup_alter_ne, lookup_insert_ne.
  - destruct a; simpl; by rewrite alter_insert_eq.
Qed.

Lemma add_edge_st_eq e g : add_edge_st e g = ((add_edge e g).2, (add_edge e g).1).
Proof.
  unfold add_edge_st, add_edge, nodes_missing.
  unfold bind at 1. 
  destruct (bool_decide (nodes g !! id (source e) = None)); [done|].
  unfold bind at 1. unfold bind at 1.
  destruct (bool_decide (nodes g !! id (target e) = None)); [done|].
  simpl orb. cbv iota.
  pose proof (adjacency_getitem_append OutEdges (id (source e)) e g) as Ho.
  unfold bind in Ho |- *.
  destruct (adjacency_getitem OutEdges (id (source e)) g) as [l g1].
  rewrite Ho.
  pose proof (adjacency_getitem_append InEdges (id (target e)) e
    (adjacency_write OutEdges
       (index_append (id (source e)) e (adjacency_read OutEdges g)) g)) as Hi.
  unfold bind in Hi.
  destruct (adjacency_getitem InEdges (id (target e)) _) as [l' g2].
  rewrite Hi. done.
Qed.

(** Reading an adjacency index through the subscript would leave a new
    key behind. *)
Lemma adjacency_getitem_creates a k g :
  adjacency_read a g !! k = None →
  adjacency_read a (adjacency_getitem a k g).2 !! k = Some [].
Proof.
  intros Hk. unfold adjacency_getitem. rewrite Hk.
  destruct a; simpl; by rewrite lookup_insert_eq.
Qed.

Lemma chain_calls_acyclic : acyclic (build chain_calls).
Proof.
  apply (ranked_acyclic chain_rank).
  apply (bool_decide_unpack (ranked chain_rank (build chain_calls))).
  vm_compute. exact I.
Qed.

(** * The repository's tests, replayed on the embedding *)

Example test_add_node :
  get_node test_graph "folder_1" = Some t_folder
  ∧ get_node test_graph "nonexistent" = None.
Proof. split; reflexivity. Qed.

Example test_add_edge_validation :
  (add_edge (ParentOfEdge t_org (ResourceNode "fake_folder" FOLDER))
     test_graph).2 = Some ValueError.
Proof. reflexivity. Qed.

Example test_iter_out_edges :
  iter_out_edges test_graph "folder_1"
  = gen_done [ParentOfEdge t_folder t_project].
Proof. reflexivity. Qed.

Example test_iter_in_edges :
  iter_in_edges test_graph "project_1"
  = gen_done [ParentOfEdge t_folder t_project].
Proof. reflexivity. Qed.

Example test_iter_children :
  iter_children test_graph "org_1" = gen_done [t_folder].
Proof. reflexivity. Qed.

Example test_iter_parents :
  iter_parents test_graph "folder_1" = gen_done [t_org].
Proof. reflexivity. Qed.

Example test_iter_descendants :
  _iter_descendants 3 test_graph "org_1" = gen_done [t_folder; t_project].
Proof. reflexivity. Qed.

Example test_iter_resource_hierarchy :
  iter_resource_hierarchy 3 test_graph "project_1" = Some [t_folder; t_org].
Proof. reflexivity. Qed.

Example test_iter_resource_hierarchy_no_parents :
  iter_resource_hierarchy 1 test_graph "org_1" = Some [].
Proof. reflexivity. Qed.

Example test_iter_user_permissions :
  iter_user_permissions 2 test_graph "adi@test.com"
  = gen_done [entry_for OWNER t_folder; entry_for OWNER t_project].
Proof. reflexivity. Qed.

Example test_iter_user_permissions_invalid_user :
  iter_user_permissions 2 test_graph "ghost@test.com"
  = gen_raise (NodeNotFoundError "ghost@test.com").
Proof. reflexivity. Qed.

(** [print_resource_tree], and the output of [main.py]. *)

Example test_print_resource_tree :
  print_resource_tree 3 test_graph "org_1" 0
  = gen_done ["- org_1"; "    - folder_1"; "        - project_1"].
Proof. reflexivity. Qed.

Example main_resource_tree :
  print_resource_tree 4 build_demo_graph "Organization1" 0
  = gen_done ["- Organization1"; "    - Folder1"; "        - Folder5";
              "            - Folder6"; "    - Folder2"; "    - Folder3";
              "    - Folder4"].
Proof. reflexivity. Qed.

Example main_resource_hierarchy :
  iter_resource_hierarchy 4 build_demo_graph "Folder6"
  = Some [demo_folder "Folder5"; demo_folder "Folder1"; demo_org].
Proof. reflexivity. Qed.

Example main_user_permissions :
  iter_user_permissions 3 build_demo_graph "adi@test.com"
  = gen_done [entry_for OWNER (demo_folder "Folder1");
              entry_for OWNER (demo_folder "Folder5");
              entry_for OWNER (demo_folder "Folder6")].
Proof. reflexivity. Qed.

(** * Verified properties *)

(** C1, as stated, fails on two kinds of graph that [add_edge] accepts.
    An edge built with the plain [Edge] constructor and type HAS_ROLE has
    no [role] attribute: the listing stops with [AttributeError] before
    any entry for the target of that edge is yielded. And on a hierarchy
    with a cycle the descendant traversal of a target on the cycle never
    completes: whatever the depth allowed, the listing ends in
    [RecursionError] and the later HAS_ROLE edge (here on F1) gets no
    entry. *)
Lemma iter_user_permissions_counterexample :
  (nodes bad_role_graph !! "U" = Some usr
   ∧ role_edges bad_role_graph "U" = [BaseEdge usr f1 HAS_ROLE]
   ∧ ∀ depth, iter_user_permissions depth bad_role_graph "U"
              = gen_raise AttributeError)
  ∧ (nodes cycle_role_graph !! "U" = Some usr
     ∧ role_edges cycle_role_graph "U"
       = [HasRoleEdge usr na OWNER; HasRoleEdge usr f1 VIEWER]
     ∧ ∀ depth,
         raised (iter_user_permissions depth cycle_role_graph "U")
         = Some RecursionError
         ∧ Forall (λ p, resource_id p ≠ "F1")
             (yielded (iter_user_permissions depth cycle_role_graph "U"))).
Proof.
  split; split_and!; try reflexivity.
  intros depth.
  rewrite (iter_user_permissions_stored _ _ _ usr) by reflexivity.
  rewrite permissions_loop_blocks.
  - change (filter is_has_role (index_get "U" (out_edges cycle_role_graph)))
      with [HasRoleEdge usr na OWNER; HasRoleEdge usr f1 VIEWER].
    destruct (cycle_descendants depth) as [[Hr Hy] _].
    cbn [map foldr]. rewrite (gen_seq_raised_l _ _ RecursionError) by done.
    split; [done|]. unfold block_run, permission_block.
    cbn [yielded role target HasRoleEdge].
    constructor; [done|]. apply Forall_fmap.
    eapply Forall_impl; [exact Hy|]. done.
  - change (index_get "U" (out_edges cycle_role_graph))
      with [HasRoleEdge usr na OWNER; HasRoleEdge usr f1 VIEWER].
    intros e [->|[->|[]%elem_of_nil]%elem_of_cons]%elem_of_cons _; by eexists.
Qed.

(** C1, amended. When the id names a stored node and every HAS_ROLE edge
    leaving it carries a role, [iter_user_permissions] yields one block per
    such edge, in insertion order: the direct entry for the edge's target,
    then one entry per node yielded by the descendant traversal of that
    target, in the same order, all with the role of the edge; nothing is
    merged. A block ends the way its descendant traversal ends, so when
    all of them complete the listing is the concatenation of the blocks;
    on an acyclic graph they do, and each is a pre-order listing. *)
Theorem iter_user_permissions_blocks (depth : nat) (g : Graph) (k : string)
    (Hnode : is_Some (nodes g !! k))
    (Hrole : ∀ e, e ∈ role_edges g k → is_Some (role e)) :
  iter_user_permissions depth g k = permission_blocks depth g k
  ∧ (Forall (λ e, raised (_iter_descendants depth g (id (target e))) = None)
       (role_edges g k) →
     iter_user_permissions depth g k
     = gen_done (role_edges g k ≫= λ e,
         permission_block
           (yielded (_iter_descendants depth g (id (target e)))) e))
  ∧ (acyclic g → ∀ n,
     iter_user_permissions (S (size (out_edges g)) + n) g k
     = gen_done (role_edges g k ≫= λ e,
         permission_block
           (yielded (_iter_descendants (S (size (out_edges g))) g
                       (id (target e)))) e)
     ∧ ∀ e, preorder g (children g (id (target e)))
              (yielded (_iter_descendants (S (size (out_edges g))) g
                          (id (target e))))).
Proof.
  destruct Hnode as [nd Hnd].
  assert (Heq : ∀ d, iter_user_permissions d g k = permission_blocks d g k).
  { intros d. rewrite (iter_user_permissions_stored _ _ _ nd) by done.
    unfold permission_blocks, role_edges. rewrite iter_out_edges_eq. simpl.
    apply permissions_loop_blocks. intros e He Hhr. apply Hrole.
    unfold role_edges. rewrite iter_out_edges_eq. simpl.
    by apply list_elem_of_filter. }
  split_and!.
  - apply Heq.
  - intros Hall. rewrite Heq. by apply permission_blocks_complete.
  - intros Hacyc n.
    pose proof (_iter_descendants_enough g Hacyc) as Hok.
    split.
    + rewrite Heq. unfold permission_blocks.
      rewrite permission_blocks_complete.
      * f_equal. apply list_bind_ext; [|done]. intros e.
        by rewrite _iter_descendants_stable.
      * apply Forall_forall. intros e _.
        by rewrite _iter_descendants_stable.
    + intros e. by apply _iter_descendants_preorder.
Qed.

Lemma iter_user_permissions_blocks_witness :
  iter_user_permissions 3 chain_graph "U"
  = gen_done [entry_for OWNER f1; entry_for OWNER f5; entry_for OWNER f6].
Proof.
  assert (Hnode : is_Some (nodes chain_graph !! "U")).
  { exists usr. reflexivity. }
  assert (Hrole : ∀ e, e ∈ role_edges chain_graph "U" → is_Some (role e)).
  { intros e He. change (role_edges chain_graph "U")
      with [HasRoleEdge usr f1 OWNER] in He.
    apply list_elem_of_singleton in He. subst e. exists OWNER. reflexivity. }
  destruct (iter_user_permissions_blocks 3 chain_graph "U" Hnode Hrole)
    as (_ & Hall & _).
  rewrite Hall.
  - reflexivity.
  - repeat constructor.
Defined.

(** C2. The ancestor walk finishes for every graph and starting id, and
    what it yields has no two nodes with the same id, holds exactly the
    ids reachable by one or more steps along incoming PARENT_OF edges,
    and is in breadth-first order: a node never comes after one that is
    strictly farther from the start. For Org -> F1 -> F5 -> F6 the walk
    from F6 yields F5, F1, Org and the walk from Org yields nothing; two
    parents sharing a grandparent yield that grandparent once. *)
Theorem iter_resource_hierarchy_bfs :
  (∀ g s, ∃ out,
     (∀ n, iter_resource_hierarchy (hierarchy_fuel g + n) g s = Some out)
     ∧ NoDup (map id out)
     ∧ (∀ x, x ∈ map id out ↔ tc (parent_step g) s x)
     ∧ (∀ l1 a l2 b l3 n,
          out = l1 ++ a :: l2 ++ b :: l3 →
          nsteps (parent_step g) (S n) s (id b) →
          ∃ m, m ≤ n ∧ nsteps (parent_step g) (S m) s (id a)))
  ∧ (∀ n, iter_resource_hierarchy (4 + n) chain_graph "F6"
          = Some [f5; f1; org])
  ∧ (∀ n, iter_resource_hierarchy (1 + n) chain_graph "Org" = Some [])
  ∧ (∀ n, iter_resource_hierarchy (4 + n) diamond_graph "C"
          = Some [p1; p2; gp]).
Proof.
  split_and!; [|by intros n; apply iter_resource_hierarchy_stable..].
  apply ancestor_walk_correct.
Qed.

Lemma iter_resource_hierarchy_bfs_witness :
  ∃ m, m ≤ 2 ∧ nsteps (parent_step chain_graph) (S m) "F6" "F5".
Proof.
  destruct (proj1 iter_resource_hierarchy_bfs chain_graph "F6")
    as (out & Hrun & _ & _ & Horder).
  specialize (Hrun 0).
  change (iter_resource_hierarchy (hierarchy_fuel chain_graph + 0)
            chain_graph "F6") with (Some [f5; f1; org]) in Hrun.
  injection Hrun as <-.
  apply (Horder [] f5 [f1] org [] 2); [reflexivity|].
  apply (nsteps_l _ _ _ "F5"); [left|].
  apply (nsteps_l _ _ _ "F1"); [left|].
  apply (nsteps_l _ _ _ "Org"); [left|].
  constructor.
Defined.

(** C3. [add_edge] with an endpoint id that is not stored raises
    [ValueError] and returns the graph untouched; with both endpoints
    stored it appends the edge to the outgoing list of its source id and
    to the incoming list of its target id, and changes nothing else. *)
Theorem add_edge_validation (g : Graph) (e : Edge) :
  (nodes g !! id (source e) = None ∨ nodes g !! id (target e) = None →
     add_edge e g = (g, Some ValueError))
  ∧ (is_Some (nodes g !! id (source e)) →
     is_Some (nodes g !! id (target e)) →
     ∃ g', add_edge e g = (g', None)
       ∧ nodes g' = nodes g
       ∧ index_get (id (source e)) (out_edges g')
         = index_get (id (source e)) (out_edges g) ++ [e]
       ∧ index_get (id (target e)) (in_edges g')
         = index_get (id (target e)) (in_edges g) ++ [e]
       ∧ (∀ k, k ≠ id (source e) → out_edges g' !! k = out_edges g !! k)
       ∧ (∀ k, k ≠ id (target e) → in_edges g' !! k = in_edges g !! k)).
Proof.
  split; [apply add_edge_rejected|].
  intros Hs Ht. rewrite add_edge_accepted by done.
  eexists. split; [reflexivity|]. simpl. split_and!.
  - done.
  - apply index_get_append.
  - apply index_get_append.
  - intros k Hk. unfold index_append. by rewrite lookup_insert_ne.
  - intros k Hk. unfold index_append. by rewrite lookup_insert_ne.
Qed.

Lemma add_edge_validation_witness :
  let g := build [AddNode org; AddNode f1] in
  add_edge (ParentOfEdge org f5) g = (g, Some ValueError)
  ∧ ∃ g', add_edge (ParentOfEdge org f1) g = (g', None)
      ∧ nodes g' = nodes g
      ∧ index_get "Org" (out_edges g') = [ParentOfEdge org f1]
      ∧ index_get "F1" (in_edges g') = [ParentOfEdge org f1].
Proof.
  intros g. split.
  - apply (proj1 (add_edge_validation g (ParentOfEdge org f5))).
    right. reflexivity.
  - destruct (proj2 (add_edge_validation g (ParentOfEdge org f1)))
      as (g' & Hadd & Hn & Ho & Hi & _).
    + exists org. reflexivity.
    + exists f1. reflexivity.
    + exists g'. split_and!; assumption.
Defined.

(** C4. On a graph whose PARENT_OF edges form no cycle, the descendant
    traversal of any id completes once the available depth exceeds the
    number of keys of the outgoing index, and what it yields is the
    pre-order listing of the hierarchy below the id: every child, followed
    by its own descendants, before its next sibling. For Org -> {F1, F2},
    F1 -> {F5} the listing below Org is F1, F5, F2. *)
Theorem descendants_preorder :
  (∀ g k, acyclic g →
     ∃ l, preorder g (children g k) l
       ∧ ∀ n, _iter_descendants (S (size (out_edges g)) + n) g k = gen_done l)
  ∧ (∀ n, _iter_descendants (3 + n) tree_graph "Org" = gen_done [f1; f5; f2]).
Proof.
  split.
  - intros g k Hacyc.
    pose proof (_iter_descendants_enough g Hacyc k) as Hok.
    exists (yielded (_iter_descendants (S (size (out_edges g))) g k)).
    split; [by apply _iter_descendants_preorder|].
    intros n. rewrite _iter_descendants_stable by done.
    destruct (_iter_descendants _ g k) as [l r]. simpl in Hok. by subst r.
  - intros n. by rewrite _iter_descendants_stable.
Qed.

Lemma descendants_preorder_witness :
  acyclic tree_graph
  ∧ preorder tree_graph (children tree_graph "Org") [f1; f5; f2]
  ∧ _iter_descendants 3 tree_graph "Org" = gen_done [f1; f5; f2].
Proof.
  split; [exact tree_graph_acyclic|].
  destruct (proj1 descendants_preorder tree_graph "Org" tree_graph_acyclic)
    as (l & Hpre & Hrun).
  specialize (Hrun 0).
  change (_iter_descendants (S (size (out_edges tree_graph)) + 0)
            tree_graph "Org") with (gen_done [f1; f5; f2]) in Hrun.
  injection Hrun as <-. split; [exact Hpre|reflexivity].
Defined.

(** C5. [iter_user_permissions] ends with [NodeNotFoundError] exactly when
    the id names no stored node, and the error is raised before anything
    is yielded; for a stored node without outgoing HAS_ROLE edge the
    listing is empty and no exception is raised. *)
Theorem iter_user_permissions_not_found (depth : nat) (g : Graph) (k : string) :
  ((∃ x, raised (iter_user_permissions depth g k) = Some (NodeNotFoundError x))
   ↔ nodes g !! k = None)
  ∧ (nodes g !! k = None →
     iter_user_permissions depth g k = gen_raise (NodeNotFoundError k))
  ∧ (is_Some (nodes g !! k) → role_edges g k = [] →
     iter_user_permissions depth g k = gen_done []).
Proof.
  assert (Hnone : nodes g !! k = None →
            iter_user_permissions depth g k = gen_raise (NodeNotFoundError k)).
  { intros Hk. unfold iter_user_permissions, get_node. by rewrite Hk. }
  split_and!.
  - split.
    + intros [x Hx]. destruct (nodes g !! k) as [n|] eqn:Hk; [|done].
      rewrite (iter_user_permissions_stored _ _ _ n) in Hx by done.
      apply gen_for_raised_inv in Hx as [?|(e & _ & He)]; [done|].
      by apply permissions_body_raised in He as [?|?].
    + intros Hk. exists k. by rewrite Hnone.
  - done.
  - intros [n Hn] Hroles.
    rewrite (iter_user_permissions_stored _ _ _ n) by done.
    apply permissions_loop_no_role.
    unfold role_edges in Hroles. by rewrite iter_out_edges_eq in Hroles.
Qed.

Lemma iter_user_permissions_not_found_witness :
  iter_user_permissions 5 chain_graph "ghost"
    = gen_raise (NodeNotFoundError "ghost")
  ∧ iter_user_permissions 5 chain_graph "F6" = gen_done [].
Proof.
  split.
  - apply (iter_user_permissions_not_found 5 chain_graph "ghost").
    reflexivity.
  - apply (iter_user_permissions_not_found 5 chain_graph "F6").
    + exists f6. reflexivity.
    + reflexivity.
Defined.

(** C6. [add_node] on an id that is already stored changes nothing: the
    node stored first is kept, the node map keeps its size, and calling
    [add_node n] twice is the same as calling it once. *)
Theorem add_node_idempotent (g : Graph) (n : Node) :
  add_node n (add_node n g) = add_node n g
  ∧ (∀ m, nodes g !! id n = Some m →
       add_node n g = g
       ∧ nodes (add_node n g) !! id n = Some m
       ∧ size (nodes (add_node n g)) = size (nodes g)).
Proof.
  split.
  - unfold add_node at 1.
    assert (is_Some (nodes (add_node n g) !! id n)) as [m ->]; [|done].
    rewrite add_node_nodes. destruct (nodes g !! id n); [eauto|].
    rewrite decide_True by done. eauto.
  - intros m Hm. assert (add_node n g = g) as ->; [|done].
    unfold add_node. by rewrite Hm.
Qed.

Lemma add_node_idempotent_witness :
  let g := add_node f1 Graph_init in
  let n := ResourceNode "F1" PROJECT in
  nodes g !! id n = Some f1
  ∧ add_node n g = g
  ∧ nodes (add_node n g) !! id n = Some f1
  ∧ size (nodes (add_node n g)) = size (nodes g).
Proof.
  intros g n. split; [reflexivity|].
  apply (proj2 (add_node_idempotent g n) f1). reflexivity.
Defined.

(** C7, as stated, fails on a cycle through the starting id. The queue
    is seeded with the starting id, which is not added to [visited]; on
    A -> B -> A the walk from A pops A, appends B, pops B, finds A
    unvisited and appends it: the queue holds A, then B, then A again, so
    A is enqueued twice. The walk still stops, after yielding B and A. *)
Lemma iter_resource_hierarchy_counterexample :
  let st0 := {| visited := ∅; queue := ["A"]; emitted := [] |} in
  let st1 := bfs_iteration cycle_graph "A" [] st0 in
  let st2 := bfs_iteration cycle_graph "B" [] st1 in
  let st3 := bfs_iteration cycle_graph "A" [] st2 in
  (queue st0 = ["A"] ∧ "A" ∉ visited st0)
  ∧ (queue st1 = ["B"] ∧ "A" ∉ visited st1)
  ∧ queue st2 = ["A"]
  ∧ queue st3 = []
  ∧ hierarchy_popped 3 cycle_graph "A" = ["A"; "B"; "A"]
  ∧ ¬ NoDup (hierarchy_popped 3 cycle_graph "A")
  ∧ iter_resource_hierarchy 3 cycle_graph "A" = Some [nb; na].
Proof.
  assert (Hpop : hierarchy_popped 3 cycle_graph "A" = ["A"; "B"; "A"]).
  { apply (hierarchy_popped_spec cycle_graph 3 "A" [nb; na]). reflexivity. }
  cbv zeta. split_and!; try reflexivity; try exact Hpop.
  - apply not_elem_of_empty.
  - apply (bool_decide_unpack _). vm_compute. exact I.
  - rewrite Hpop. intros Hnd. apply NoDup_cons in Hnd as [Hnin _].
    apply Hnin. right. left.
Qed.

(** C7. On every graph built through the public interface, cyclic or not,
    the ancestor walk finishes within [hierarchy_fuel] iterations of its
    loop; no id is yielded twice, every yielded node is a stored node, so
    at most one node per stored node is yielded; a starting id that names
    no stored node yields nothing. What keeps the walk finite is the
    [visited] set: an iteration appends to the queue exactly the ids of
    the nodes it yields, none of them visited before, so no id is
    appended to the queue twice. The ids that pass through the queue are
    the starting id, which seeds it, followed by the ids of the yielded
    nodes: every id is enqueued at most once, except the starting id,
    which is enqueued a second time exactly when it lies on a cycle of
    PARENT_OF edges. On the cycle A -> B -> A the walk from A yields B, A
    and stops. *)
Theorem iter_resource_hierarchy_terminates :
  (∀ (cs : list call) (s : string), ∃ out,
     (∀ n, iter_resource_hierarchy (hierarchy_fuel (build cs) + n)
             (build cs) s = Some out)
     ∧ NoDup (map id out)
     ∧ (∀ p, p ∈ out → is_Some (nodes (build cs) !! id p))
     ∧ length out ≤ size (nodes (build cs))
     ∧ (nodes (build cs) !! s = None → out = [])
     ∧ (∀ n, hierarchy_popped (hierarchy_fuel (build cs) + n) (build cs) s
             = s :: map id out)
     ∧ (s ∈ map id out ↔ tc (parent_step (build cs)) s s))
  ∧ (∀ g current_id rest st, ∃ new,
       emitted (bfs_iteration g current_id rest st) = emitted st ++ new
       ∧ queue (bfs_iteration g current_id rest st) = rest ++ map id new
       ∧ NoDup (map id new)
       ∧ ∀ p, p ∈ new → id p ∉ visited st)
  ∧ (∀ n, iter_resource_hierarchy (3 + n) cycle_graph "A" = Some [nb; na]).
Proof.
  split_and!; [| |by intros n; apply iter_resource_hierarchy_stable]; cycle 1.
  { intros g cur rest st.
    destruct (bfs_iteration_spec g cur rest st)
      as (new & HE & HQ & _ & Hnd & Hnew & _).
    exists new. split_and!; try done. intros p Hp. by apply Hnew. }
  intros cs s. pose proof (build_wf cs) as Hwf.
  destruct (ancestor_walk_correct (build cs) s)
    as (out & Hrun & Hnd & Hmem & _).
  exists out.
  assert (Hstored : ∀ p, p ∈ out → is_Some (nodes (build cs) !! id p)).
  { intros p Hp.
    assert (Htc : tc (parent_step (build cs)) s (id p)).
    { apply Hmem. by apply list_elem_of_fmap_2. }
    apply tc_nsteps in Htc as (n & Hn & Hsteps).
    destruct n as [|n]; [lia|].
    apply nsteps_inv_r in Hsteps as (y & _ & Hstep).
    by eapply parent_step_stored. }
  split_and!; try done.
  - rewrite <-(length_map id), <-size_dom.
    rewrite <-(size_list_to_set (C := gset string)) by done.
    apply subseteq_size. intros x Hx.
    apply elem_of_list_to_set, list_elem_of_fmap in Hx as (p & -> & Hp).
    apply elem_of_dom. auto.
  - intros Hs. destruct out as [|p out]; [done|].
    assert (Htc : tc (parent_step (build cs)) s (id p)).
    { apply Hmem. left. }
    apply tc_first_step in Htc as (z & (q & _ & Hq)%list_elem_of_fmap).
    apply parents_elem in Hq as (e & He & _).
    rewrite index_get_unknown_in in He by done. by apply elem_of_nil in He.
  - intros n. by apply hierarchy_popped_spec.
Qed.

Lemma iter_resource_hierarchy_terminates_witness :
  iter_resource_hierarchy 5 chain_graph "ghost" = Some [].
Proof.
  destruct (proj1 iter_resource_hierarchy_terminates chain_calls "ghost")
    as (out & Hrun & _ & _ & _ & Hempty & _).
  rewrite <-Hempty; [|reflexivity]. exact (Hrun 1).
Defined.

(** C8. The four plain iterators never raise, whatever the graph and the
    id. On a graph built through the public interface they yield the
    accepted edges leaving (entering) the id, in insertion order, or the
    PARENT_OF endpoints of those edges; for an id that names no stored
    node all four yield nothing. *)
Theorem read_iterators_total :
  (∀ g k, raised (iter_out_edges g k) = None
          ∧ raised (iter_in_edges g k) = None
          ∧ raised (iter_children g k) = None
          ∧ raised (iter_parents g k) = None)
  ∧ (∀ cs k,
       iter_out_edges (build cs) k
       = gen_done (filter (source_is k) (accepted_edges cs))
       ∧ iter_in_edges (build cs) k
         = gen_done (filter (target_is k) (accepted_edges cs))
       ∧ iter_children (build cs) k
         = gen_done (map target (filter is_parent_of
                       (filter (source_is k) (accepted_edges cs))))
       ∧ iter_parents (build cs) k
         = gen_done (map source (filter is_parent_of
                       (filter (target_is k) (accepted_edges cs))))
       ∧ (nodes (build cs) !! k = None →
            iter_out_edges (build cs) k = gen_done []
            ∧ iter_in_edges (build cs) k = gen_done []
            ∧ iter_children (build cs) k = gen_done []
            ∧ iter_parents (build cs) k = gen_done [])).
Proof.
  split.
  { intros g k.
    by rewrite iter_out_edges_eq, iter_in_edges_eq, iter_children_eq,
      iter_parents_eq. }
  intros cs k.
  rewrite iter_out_edges_eq, iter_in_edges_eq, iter_children_eq, iter_parents_eq.
  assert (Ho : index_get k (out_edges (build cs))
               = filter (source_is k) (accepted_edges cs)).
  { unfold build, accepted_edges. by rewrite edge_log_out. }
  assert (Hi : index_get k (in_edges (build cs))
               = filter (target_is k) (accepted_edges cs)).
  { unfold build, accepted_edges. by rewrite edge_log_in. }
  rewrite <-Ho, <-Hi. split_and!; try done.
  intros Hk.
  rewrite (index_get_unknown_out _ _ (build_wf cs) Hk).
  rewrite (index_get_unknown_in _ _ (build_wf cs) Hk). done.
Qed.

Lemma read_iterators_total_witness :
  iter_out_edges chain_graph "ghost" = gen_done []
  ∧ iter_in_edges chain_graph "ghost" = gen_done []
  ∧ iter_children chain_graph "ghost" = gen_done []
  ∧ iter_parents chain_graph "ghost" = gen_done [].
Proof.
  apply (proj2 read_iterators_total chain_calls "ghost"). reflexivity.
Defined.

(** C9. After any sequence of [add_node] / [add_edge] calls the two
    adjacency indexes agree: the outgoing list of an id holds, in call
    order, one occurrence per accepted [add_edge] call whose edge has that
    source id, the incoming list likewise for the target id; hence both
    indexes hold the same multiset of edges, namely the accepted ones; and
    every key and every endpoint id in the indexes names a stored node. *)
Theorem adjacency_indexes_consistent (cs : list call) :
  (∀ k, index_get k (out_edges (build cs))
        = filter (source_is k) (accepted_edges cs))
  ∧ (∀ k, index_get k (in_edges (build cs))
          = filter (target_is k) (accepted_edges cs))
  ∧ index_edges (out_edges (build cs)) ≡ₚ accepted_edges cs
  ∧ index_edges (in_edges (build cs)) ≡ₚ accepted_edges cs
  ∧ index_edges (out_edges (build cs)) ≡ₚ index_edges (in_edges (build cs))
  ∧ (∀ k, is_Some (out_edges (build cs) !! k) →
          is_Some (nodes (build cs) !! k))
  ∧ (∀ k, is_Some (in_edges (build cs) !! k) →
          is_Some (nodes (build cs) !! k))
  ∧ (∀ e, e ∈ accepted_edges cs →
          is_Some (nodes (build cs) !! id (source e))
          ∧ is_Some (nodes (build cs) !! id (target e))).
Proof.
  unfold build, accepted_edges.
  destruct (edge_log_index_edges cs Graph_init) as [Ho Hi].
  change (index_edges (out_edges Graph_init)) with (@nil Edge) in Ho.
  change (index_edges (in_edges Graph_init)) with (@nil Edge) in Hi.
  simpl in Ho, Hi. split_and!.
  - intros k. by rewrite edge_log_out.
  - intros k. by rewrite edge_log_in.
  - done.
  - done.
  - by rewrite Ho, Hi.
  - apply (wf_out_key _ (build_wf cs)).
  - apply (wf_in_key _ (build_wf cs)).
  - intros e. apply edge_log_endpoints.
Qed.

Lemma adjacency_indexes_consistent_witness :
  let cs := [AddNode na; AddNode nb; AddEdge (ParentOfEdge na nb);
             AddEdge (ParentOfEdge na nb); AddEdge (ParentOfEdge nb org)] in
  accepted_edges cs = [ParentOfEdge na nb; ParentOfEdge na nb]
  ∧ index_get "A" (out_edges (build cs)) = [ParentOfEdge na nb; ParentOfEdge na nb]
  ∧ index_get "B" (in_edges (build cs)) = [ParentOfEdge na nb; ParentOfEdge na nb]
  ∧ is_Some (nodes (build cs) !! "A").
Proof.
  intros cs.
  destruct (adjacency_indexes_consistent cs) as (Ho & Hi & _ & _ & _ & Hk & _).
  split_and!.
  - reflexivity.
  - rewrite Ho. reflexivity.
  - rewrite Hi. reflexivity.
  - apply Hk. eexists. reflexivity.
Defined.

(** C10. No read call changes the graph. With [self] threaded through
    every access a method makes to the node map and to the two adjacency
    indexes, each of the eight read methods, for every graph and every
    id, stored or not, and whatever it returns or raises, hands back the
    object it was given, and its result is the one the functional
    definition gives. They reach the indexes through [.get(k, [])] only;
    the subscript that [add_edge] uses would store a new key for an
    unknown id. *)
Theorem queries_leave_graph_unchanged (budget : nat) (g : Graph) (k : string) :
  get_node_st k g = (get_node g k, g)
  ∧ iter_out_edges_st k g = (iter_out_edges g k, g)
  ∧ iter_in_edges_st k g = (iter_in_edges g k, g)
  ∧ iter_children_st k g = (iter_children g k, g)
  ∧ iter_parents_st k g = (iter_parents g k, g)
  ∧ _iter_descendants_st budget k g = (_iter_descendants budget g k, g)
  ∧ iter_resource_hierarchy_st budget k g
    = (iter_resource_hierarchy budget g k, g)
  ∧ iter_user_permissions_st budget k g
    = (iter_user_permissions budget g k, g)
  ∧ ∀ a, adjacency_read a g !! k = None → (adjacency_getitem a k g).2 ≠ g.
Proof.
  split_and!.
  - reflexivity.
  - apply iter_out_edges_st_eq.
  - apply iter_in_edges_st_eq.
  - apply iter_children_st_eq.
  - apply iter_parents_st_eq.
  - apply _iter_descendants_st_eq.
  - apply bfs_loop_st_eq.
  - apply iter_user_permissions_st_eq.
  - intros a Hk Heq.
    pose proof (adjacency_getitem_creates a k g Hk) as Hnew.
    rewrite Heq, Hk in Hnew. discriminate.
Qed.

(** * Further properties *)

(** X1. On a graph built through the public interface, printing the tree
    of a stored root below which the hierarchy has no cycle completes
    once the available depth exceeds the number of keys of the outgoing
    index. It prints the line of the root and then one line per node of
    the descendant traversal of the root, in the same pre-order, each
    line indented by four more blanks per level below the root. *)
Theorem print_resource_tree_preorder (cs : list call) (root_id : string)
    (spaces : Z)
    (Hroot : is_Some (get_node (build cs) root_id))
    (Hacyc : acyclic_below (build cs) root_id) :
  ∃ L : list (Node * nat),
    preorder_levels (build cs) 1 (children (build cs) root_id) L
    ∧ (∀ n, _iter_descendants (S (size (out_edges (build cs))) + n)
              (build cs) root_id = gen_done L.*1)
    ∧ (∀ n, print_resource_tree (S (size (out_edges (build cs))) + n)
              (build cs) root_id spaces
            = gen_done (tree_line spaces root_id :: map (line_at spaces) L)).
Proof.
  pose proof (build_wf cs) as Hwf.
  set (d := S (size (out_edges (build cs)))).
  assert (Hok : raised (_iter_descendants d (build cs) root_id) = None).
  { unfold d. rewrite <-(Nat.add_0_r (S _)).
    by apply _iter_descendants_enough_below. }
  destruct (print_resource_tree_run _ Hwf d root_id spaces 0 Hroot Hok)
    as (L & HL & Hy & Hrun).
  rewrite Z.mul_0_r, Z.add_0_r in Hrun.
  exists L. split_and!; [done| |].
  - intros n. rewrite _iter_descendants_stable by done. rewrite Hy.
    destruct (_iter_descendants d (build cs) root_id) as [l r].
    simpl in *. by subst r.
  - intros n. rewrite print_resource_tree_stable; [done|]. by rewrite Hrun.
Qed.

Lemma print_resource_tree_preorder_witness :
  ∃ L : list (Node * nat),
    preorder_levels (build chain_calls) 1 (children (build chain_calls) "Org") L
    ∧ (∀ n, _iter_descendants (S (size (out_edges (build chain_calls))) + n)
              (build chain_calls) "Org" = gen_done L.*1)
    ∧ (∀ n, print_resource_tree (S (size (out_edges (build chain_calls))) + n)
              (build chain_calls) "Org" 0
            = gen_done (tree_line 0 "Org" :: map (line_at 0) L)).
Proof.
  apply (print_resource_tree_preorder chain_calls "Org" 0).
  - exists org. reflexivity.
  - apply acyclic_acyclic_below. exact chain_calls_acyclic.
Defined.

(** X2. How printing the tree can fail on a graph built through the
    public interface. For a root id that names no stored node it raises
    [NodeNotFoundError] for that id before printing anything. For a
    stored root it ends exactly the way the descendant traversal of the
    root does at the same depth: the only exception is [RecursionError],
    raised at every depth when a cycle lies below the root; and the line
    of the root is printed before any failure. *)
Theorem print_resource_tree_failures (cs : list call) (depth : nat)
    (root_id : string) (spaces : Z) :
  (get_node (build cs) root_id = None →
     print_resource_tree (S depth) (build cs) root_id spaces
     = gen_raise (NodeNotFoundError root_id))
  ∧ (is_Some (get_node (build cs) root_id) →
     raised (print_resource_tree depth (build cs) root_id spaces)
     = raised (_iter_descendants depth (build cs) root_id)
     ∧ (∀ x, raised (print_resource_tree depth (build cs) root_id spaces)
             = Some x → x = RecursionError)
     ∧ (¬ acyclic_below (build cs) root_id →
        raised (print_resource_tree depth (build cs) root_id spaces)
        = Some RecursionError)
     ∧ ∃ rest,
         yielded (print_resource_tree (S depth) (build cs) root_id spaces)
         = tree_line spaces root_id :: rest).
Proof.
  pose proof (build_wf cs) as Hwf. split.
  { intros Hk. rewrite print_resource_tree_unfold. by rewrite Hk. }
  intros Hroot.
  rewrite (print_resource_tree_raised _ Hwf) by done.
  split_and!.
  - done.
  - intros x Hx. by eapply _iter_descendants_raised.
  - intros Hcyc.
    destruct (raised (_iter_descendants depth (build cs) root_id))
      as [x|] eqn:Hx.
    + apply _iter_descendants_raised in Hx. by subst.
    + by apply _iter_descendants_complete_acyclic in Hx.
  - destruct Hroot as [node Hnode].
    rewrite (print_resource_tree_S _ Hwf _ _ node) by done.
    eexists. unfold gen_seq. simpl. reflexivity.
Qed.

(** X3. The descendant traversal of an id completes at some depth
    exactly when no cycle of PARENT_OF edges can be reached from the id;
    then every depth above the number of keys of the outgoing index is
    enough. When such a cycle can be reached it ends in [RecursionError]
    at every depth: nothing guards it against cycles. *)
Theorem descendants_complete_iff_no_cycle_below (g : Graph) (k : string) :
  ((∃ depth, raised (_iter_descendants depth g k) = None)
   ↔ acyclic_below g k)
  ∧ (acyclic_below g k →
     ∀ n, raised (_iter_descendants (S (size (out_edges g)) + n) g k) = None)
  ∧ (¬ acyclic_below g k →
     ∀ depth, raised (_iter_descendants depth g k) = Some RecursionError).
Proof.
  split_and!.
  - split.
    + intros [depth Hd]. by eapply _iter_descendants_complete_acyclic.
    + intros Hacyc. exists (S (size (out_edges g)) + 0).
      by apply _iter_descendants_enough_below.
  - intros Hacyc n. by apply _iter_descendants_enough_below.
  - intros Hcyc depth.
    destruct (raised (_iter_descendants depth g k)) as [x|] eqn:Hx.
    + apply _iter_descendants_raised in Hx. by subst.
    + by apply _iter_descendants_complete_acyclic in Hx.
Qed.

(** X4. What the descendant traversal yields are the nodes strictly below
    the starting id: at any depth, completed or not, every yielded node is
    reachable from the id by one or more PARENT_OF edges; and a traversal
    that completes yields every id so reachable. *)
Theorem descendants_are_the_reachable_ids (g : Graph) (k x : string) :
  (∀ depth, x ∈ map id (yielded (_iter_descendants depth g k)) →
            tc (child_step g) k x)
  ∧ (∀ depth, raised (_iter_descendants depth g k) = None →
       (x ∈ map id (yielded (_iter_descendants depth g k))
        ↔ tc (child_step g) k x))
  ∧ (acyclic_below g k →
     ∀ n, x ∈ map id (yielded (_iter_descendants
                                 (S (size (out_edges g)) + n) g k))
          ↔ tc (child_step g) k x).
Proof.
  split_and!.
  - intros depth (n & -> & Hn)%list_elem_of_fmap.
    by eapply _iter_descendants_sound.
  - intros depth Hok. by apply _iter_descendants_elem.
  - intros Hacyc n. by apply _iter_descendants_elem,
      _iter_descendants_enough_below.
Qed.

(** X5. On a graph built through the public interface the two adjacency
    indexes describe the same relation, read in opposite directions: an
    edge is among the outgoing edges of its source id exactly when it is
    among the incoming edges of its target id; [b] is the id of a child
    of [a] exactly when [a] is the id of a parent of [b]; and likewise for
    chains of such steps. *)
Theorem children_parents_converse (cs : list call) :
  (∀ e, e ∈ yielded (iter_out_edges (build cs) (id (source e)))
        ↔ e ∈ yielded (iter_in_edges (build cs) (id (target e))))
  ∧ (∀ a b, b ∈ map id (yielded (iter_children (build cs) a))
            ↔ a ∈ map id (yielded (iter_parents (build cs) b)))
  ∧ (∀ a b, tc (child_step (build cs)) a b ↔ tc (parent_step (build cs)) b a).
Proof.
  split_and!.
  - intros e. rewrite iter_out_edges_eq, iter_in_edges_eq. simpl.
    apply build_index_converse.
  - intros a b. apply child_parent_step.
  - apply tc_child_parent_step.
Qed.

(** X6. Descendants and ancestors are dual on a graph built through the
    public interface: when no cycle lies below [k], the descendant
    traversal of [k] yields a node with id [x] exactly when the ancestor
    walk from [x] yields a node with id [k]. *)
Theorem descendants_ancestors_dual (cs : list call) (k x : string)
    (Hacyc : acyclic_below (build cs) k) :
  ∃ anc,
    (∀ n, iter_resource_hierarchy (hierarchy_fuel (build cs) + n)
            (build cs) x = Some anc)
    ∧ (∀ n, x ∈ map id (yielded (_iter_descendants
                                   (S (size (out_edges (build cs))) + n)
                                   (build cs) k))
            ↔ k ∈ map id anc).
Proof.
  destruct (ancestor_walk_correct (build cs) x) as (anc & Hrun & _ & Hmem & _).
  exists anc. split; [done|]. intros n.
  rewrite Hmem, <-tc_child_parent_step.
  by apply _iter_descendants_elem, _iter_descendants_enough_below.
Qed.

Lemma descendants_ancestors_dual_witness :
  ∃ anc,
    (∀ n, iter_resource_hierarchy (hierarchy_fuel (build chain_calls) + n)
            (build chain_calls) "F5" = Some anc)
    ∧ (∀ n, "F5" ∈ map id (yielded (_iter_descendants
                                     (S (size (out_edges (build chain_calls))) + n)
                                     (build chain_calls) "Org"))
            ↔ "Org" ∈ map id anc).
Proof.
  apply (descendants_ancestors_dual chain_calls "Org" "F5").
  apply acyclic_acyclic_below. exact chain_calls_acyclic.
Defined.

(** X7. On a graph built through the public interface the ancestor walk
    from an id yields a node with that same id exactly when the id lies on
    a cycle of PARENT_OF edges; and then the descendant traversal of the
    id ends in [RecursionError] at every depth. On an acyclic hierarchy a
    resource is never listed among its own ancestors. *)
Theorem ancestor_walk_self_iff_cycle (cs : list call) (s : string) :
  ∃ anc,
    (∀ n, iter_resource_hierarchy (hierarchy_fuel (build cs) + n)
            (build cs) s = Some anc)
    ∧ (s ∈ map id anc ↔ tc (child_step (build cs)) s s)
    ∧ (s ∈ map id anc →
       ∀ depth, raised (_iter_descendants depth (build cs) s)
                = Some RecursionError)
    ∧ (acyclic (build cs) → s ∉ map id anc).
Proof.
  destruct (ancestor_walk_correct (build cs) s) as (anc & Hrun & _ & Hmem & _).
  exists anc. rewrite Hmem, <-tc_child_parent_step. split_and!; [done..| |].
  - intros Hcyc depth.
    destruct (raised (_iter_descendants depth (build cs) s)) as [x|] eqn:Hx.
    + apply _iter_descendants_raised in Hx. by subst.
    + apply _iter_descendants_complete_acyclic in Hx.
      destruct (Hx s); [constructor|done].
  - intros Hacyc. apply Hacyc.
Qed.

(** X8. Who gets what. On a graph built through the public interface, for
    a stored identity whose outgoing HAS_ROLE edges all carry a role and
    point to resources below which the hierarchy has no cycle, the
    permission listing completes, and it holds an entry for resource [x]
    with role [r] exactly when some HAS_ROLE edge of the identity with
    role [r] points to [x] itself or to a node the ancestor walk from [x]
    yields. *)
Theorem iter_user_permissions_granted_iff (cs : list call) (k : string)
    (Hnode : is_Some (get_node (build cs) k))
    (Hrole : ∀ e, e ∈ role_edges (build cs) k → is_Some (role e))
    (Hacyc : ∀ e, e ∈ role_edges (build cs) k →
                  acyclic_below (build cs) (id (target e))) :
  ∀ (x : string) (r : RoleType), ∃ anc,
    (∀ n, iter_resource_hierarchy (hierarchy_fuel (build cs) + n)
            (build cs) x = Some anc)
    ∧ ∀ n,
        raised (iter_user_permissions (S (size (out_edges (build cs))) + n)
                  (build cs) k) = None
        ∧ ((∃ p, p ∈ yielded (iter_user_permissions
                                (S (size (out_edges (build cs))) + n)
                                (build cs) k)
                 ∧ resource_id p = x ∧ prole p = r)
           ↔ (∃ e, e ∈ role_edges (build cs) k ∧ role e = Some r
                   ∧ (id (target e) = x ∨ id (target e) ∈ map id anc))).
Proof.
  intros x r.
  destruct (ancestor_walk_correct (build cs) x) as (anc & Hrun & _ & Hmem & _).
  exists anc. split; [done|]. intros n.
  set (d := S (size (out_edges (build cs))) + n).
  assert (Hok : ∀ e, e ∈ role_edges (build cs) k →
            raised (_iter_descendants d (build cs) (id (target e))) = None).
  { intros e He. by apply _iter_descendants_enough_below, Hacyc. }
  rewrite (iter_user_permissions_complete d (build cs) k) by done.
  unfold gen_done. cbn [yielded raised]. split; [done|]. split.
  - intros (p & (e & Hp & He)%list_elem_of_bind & Hx & Hpr).
    apply permission_block_elem in Hp as (r0 & Hr0 & Hcase).
    exists e.
    destruct Hcase as [->|(nd & Hnd & ->)];
      cbn [entry_for resource_id prole] in Hx, Hpr; subst r0.
    + split_and!; [done..|by left].
    + split_and!; [done..|]. right. subst x.
      apply Hmem, tc_child_parent_step.
      apply (_iter_descendants_elem _ d); [by apply Hok|].
      by apply list_elem_of_fmap_2.
  - intros (e & He & Hr & [<-|Hanc]).
    + exists (entry_for r (target e)). split_and!; [|done..].
      apply list_elem_of_bind. exists e. split; [|done].
      apply permission_block_elem. exists r. eauto.
    + apply Hmem, tc_child_parent_step in Hanc.
      apply (_iter_descendants_elem _ d) in Hanc; [|by apply Hok].
      apply list_elem_of_fmap in Hanc as (nd & -> & Hnd).
      exists (entry_for r nd). split_and!; [|done..].
      apply list_elem_of_bind. exists e. split; [|done].
      apply permission_block_elem. exists r. eauto.
Qed.

Lemma iter_user_permissions_granted_iff_witness :
  ∃ anc,
    (∀ n, iter_resource_hierarchy (hierarchy_fuel (build chain_calls) + n)
            (build chain_calls) "F6" = Some anc)
    ∧ ∀ n,
        raised (iter_user_permissions
                  (S (size (out_edges (build chain_calls))) + n)
                  (build chain_calls) "U") = None
        ∧ ((∃ p, p ∈ yielded (iter_user_permissions
                                (S (size (out_edges (build chain_calls))) + n)
                                (build chain_calls) "U")
                 ∧ resource_id p = "F6" ∧ prole p = OWNER)
           ↔ (∃ e, e ∈ role_edges (build chain_calls) "U"
                   ∧ role e = Some OWNER
                   ∧ (id (target e) = "F6" ∨ id (target e) ∈ map id anc))).
Proof.
  apply (iter_user_permissions_granted_iff chain_calls "U").
  - exists usr. reflexivity.
  - intros e He. change (role_edges (build chain_calls) "U")
      with [HasRoleEdge usr f1 OWNER] in He.
    apply list_elem_of_singleton in He. subst e. exists OWNER. reflexivity.
  - intros e _. apply acyclic_acyclic_below. exact chain_calls_acyclic.
Defined.

(** X9. Nothing dangles on a graph built through the public interface:
    the node stored under an id has that id, and every node yielded by
    [iter_children], [iter_parents] and the descendant traversal, at any
    depth and whether it completes or not, as well as every resource id in
    an entry of the permission listing, names a stored node. *)
Theorem yielded_ids_are_stored (cs : list call) (depth : nat) (k : string) :
  (∀ n, get_node (build cs) k = Some n → id n = k)
  ∧ (∀ c, c ∈ yielded (iter_children (build cs) k) →
          is_Some (get_node (build cs) (id c)))
  ∧ (∀ p, p ∈ yielded (iter_parents (build cs) k) →
          is_Some (get_node (build cs) (id p)))
  ∧ (∀ n, n ∈ yielded (_iter_descendants depth (build cs) k) →
          is_Some (get_node (build cs) (id n)))
  ∧ (∀ p, p ∈ yielded (iter_user_permissions depth (build cs) k) →
          is_Some (get_node (build cs) (resource_id p))).
Proof.
  pose proof (build_wf cs) as Hwf. unfold get_node. split_and!.
  - apply (wf_node_key _ Hwf).
  - intros c Hc. by eapply children_stored.
  - intros p Hp. by eapply parents_stored.
  - intros n Hn. apply _iter_descendants_sound in Hn.
    by eapply tc_child_step_stored.
  - intros p (e & He & _ & [->|Hp])%iter_user_permissions_sound.
    + rewrite role_edges_eq in He. apply list_elem_of_filter in He as [_ He].
      by destruct (wf_out_edge _ Hwf _ _ He).
    + by eapply tc_child_step_stored.
Qed.

(** X10. Construction only adds. Whatever calls of [add_node] and
    [add_edge] follow, a stored node stays stored under its id unchanged,
    the edges, children and parents listed for an id stay listed, in the
    same order, before anything new, and an edge that [add_edge] would
    accept keeps being accepted. *)
Theorem construction_only_adds (g : Graph) (cs : list call) :
  (∀ k n, get_node g k = Some n →
          get_node (foldl apply_call g cs) k = Some n)
  ∧ (∀ k, yielded (iter_out_edges g k)
          `prefix_of` yielded (iter_out_edges (foldl apply_call g cs) k))
  ∧ (∀ k, yielded (iter_in_edges g k)
          `prefix_of` yielded (iter_in_edges (foldl apply_call g cs) k))
  ∧ (∀ k, yielded (iter_children g k)
          `prefix_of` yielded (iter_children (foldl apply_call g cs) k))
  ∧ (∀ k, yielded (iter_parents g k)
          `prefix_of` yielded (iter_parents (foldl apply_call g cs) k))
  ∧ (∀ e, (add_edge e g).2 = None →
          (add_edge e (foldl apply_call g cs)).2 = None).
Proof.
  split_and!.
  - intros k n. apply foldl_apply_call_nodes_mono.
  - intros k. rewrite !iter_out_edges_eq. apply foldl_apply_call_out_prefix.
  - intros k. rewrite !iter_in_edges_eq. apply foldl_apply_call_in_prefix.
  - intros k. rewrite !iter_children_eq. simpl.
    rewrite edge_log_out, filter_app, map_app. by apply prefix_app_r.
  - intros k. rewrite !iter_parents_eq. simpl.
    rewrite edge_log_in, filter_app, map_app. by apply prefix_app_r.
  - intros e [[s Hs] [t Ht]]%add_edge_accepted_iff.
    apply add_edge_accepted_iff.
    split; eexists; by apply foldl_apply_call_nodes_mono.
Qed.

(** X11. Extending a graph never removes an ancestor or a descendant:
    whatever calls of [add_node] and [add_edge] follow, every id the
    ancestor walk yielded is still yielded afterwards, and every id the
    descendant traversal yielded is yielded by any traversal of the
    extended graph that completes. *)
Theorem hierarchy_only_grows (g : Graph) (cs : list call) (s : string) :
  (∃ out out',
     (∀ n, iter_resource_hierarchy (hierarchy_fuel g + n) g s = Some out)
     ∧ (∀ n, iter_resource_hierarchy
               (hierarchy_fuel (foldl apply_call g cs) + n)
               (foldl apply_call g cs) s = Some out')
     ∧ ∀ x, x ∈ map id out → x ∈ map id out')
  ∧ (∀ depth depth' x,
       raised (_iter_descendants depth' (foldl apply_call g cs) s) = None →
       x ∈ map id (yielded (_iter_descendants depth g s)) →
       x ∈ map id (yielded (_iter_descendants depth'
                              (foldl apply_call g cs) s))).
Proof.
  split.
  - destruct (ancestor_walk_correct g s) as (out & Hrun & _ & Hmem & _).
    destruct (ancestor_walk_correct (foldl apply_call g cs) s)
      as (out' & Hrun' & _ & Hmem' & _).
    exists out, out'. split_and!; [done..|].
    intros x Hx%Hmem. apply Hmem'.
    eapply tc_mono; [|exact Hx]. apply foldl_apply_call_parent_step.
  - intros depth depth' x Hok (n & -> & Hn)%list_elem_of_fmap.
    apply _iter_descendants_elem; [done|].
    apply _iter_descendants_sound in Hn.
    eapply tc_mono; [|exact Hn]. apply foldl_apply_call_child_step.
Qed.

(** X12. Role assignments do not touch the hierarchy: after [add_edge]
    of an edge of type HAS_ROLE, accepted or not, the children, the
    parents, the descendant traversal, the ancestor walk and the printed
    tree of every id are what they were. *)
Theorem role_edges_leave_hierarchy (g : Graph) (e : Edge)
    (He : etype e = HAS_ROLE) :
  ∀ k,
    iter_children (add_edge e g).1 k = iter_children g k
    ∧ iter_parents (add_edge e g).1 k = iter_parents g k
    ∧ (∀ depth, _iter_descendants depth (add_edge e g).1 k
                = _iter_descendants depth g k)
    ∧ (∀ fuel, iter_resource_hierarchy fuel (add_edge e g).1 k
               = iter_resource_hierarchy fuel g k)
    ∧ (∀ depth spaces, print_resource_tree depth (add_edge e g).1 k spaces
                       = print_resource_tree depth g k spaces).
Proof.
  intros k. split_and!.
  - by apply children_iter_children, add_edge_role_children.
  - by rewrite !iter_parents_parents, add_edge_role_parents.
  - intros depth. apply _iter_descendants_children_ext.
    intros k'. by apply add_edge_role_children.
  - intros fuel. apply bfs_loop_parents_ext.
    intros k'. by apply add_edge_role_parents.
  - intros depth spaces. apply print_resource_tree_ext.
    + apply add_edge_nodes.
    + intros k'. by apply children_iter_children, add_edge_role_children.
Qed.

Lemma role_edges_leave_hierarchy_witness :
  iter_children (add_edge (HasRoleEdge org f1 OWNER) tree_graph).1 "Org"
  = gen_done [f1; f2]
  ∧ iter_parents (add_edge (HasRoleEdge org f1 OWNER) tree_graph).1 "F1"
    = gen_done [org].
Proof.
  destruct (role_edges_leave_hierarchy tree_graph (HasRoleEdge org f1 OWNER)
              eq_refl "Org") as (Hc & _).
  destruct (role_edges_leave_hierarchy tree_graph (HasRoleEdge org f1 OWNER)
              eq_refl "F1") as (_ & Hp & _).
  rewrite Hc, Hp. split; reflexivity.
Defined.

(** X13. First registration wins, across any history: on the graph built
    by a sequence of calls, [get_node] returns the node of the first
    [add_node] call made with that id, whatever [add_node] or [add_edge]
    calls come before or after it, and [None] when there is no such
    call. *)
Theorem get_node_first_registration (cs : list call) (k : string) :
  get_node (build cs) k = head (filter (λ n, id n = k) (node_log cs))
  ∧ ∀ g, get_node (foldl apply_call g cs) k
         = match get_node g k with
           | Some m => Some m
           | None => head (filter (λ n, id n = k) (node_log cs))
           end.
Proof.
  unfold get_node, build. split.
  - by rewrite foldl_apply_call_nodes.
  - intros g. apply foldl_apply_call_nodes.
Qed.

(** X14. Registering a node changes no edge list and no traversal of the
    hierarchy, and it changes the permission listing of no id that was
    stored or differs from the new one. On a graph built through the
    public interface, a node registered under a fresh id starts empty: no
    children, no parents, no descendants, no ancestors, no permissions,
    and its printed tree is its own line. *)
Theorem add_node_leaves_traversals (g : Graph) (n : Node) :
  (∀ k,
     iter_out_edges (add_node n g) k = iter_out_edges g k
     ∧ iter_in_edges (add_node n g) k = iter_in_edges g k
     ∧ iter_children (add_node n g) k = iter_children g k
     ∧ iter_parents (add_node n g) k = iter_parents g k
     ∧ (∀ depth, _iter_descendants depth (add_node n g) k
                 = _iter_descendants depth g k)
     ∧ (∀ fuel, iter_resource_hierarchy fuel (add_node n g) k
                = iter_resource_hierarchy fuel g k)
     ∧ (k ≠ id n ∨ is_Some (get_node g k) →
        ∀ depth, iter_user_permissions depth (add_node n g) k
                 = iter_user_permissions depth g k))
  ∧ (∀ cs, g = build cs → get_node g (id n) = None →
       get_node (add_node n g) (id n) = Some n
       ∧ iter_children (add_node n g) (id n) = gen_done []
       ∧ iter_parents (add_node n g) (id n) = gen_done []
       ∧ (∀ depth, _iter_descendants (S depth) (add_node n g) (id n)
                   = gen_done [])
       ∧ (∀ fuel, iter_resource_hierarchy (S fuel) (add_node n g) (id n)
                  = Some [])
       ∧ (∀ depth, iter_user_permissions depth (add_node n g) (id n)
                   = gen_done [])
       ∧ (∀ depth spaces,
            print_resource_tree (S depth) (add_node n g) (id n) spaces
            = gen_done [tree_line spaces (id n)])).
Proof.
  split.
  - intros k. split_and!.
    + by rewrite !iter_out_edges_eq, add_node_out_edges.
    + by rewrite !iter_in_edges_eq, add_node_in_edges.
    + by rewrite !iter_children_eq, add_node_out_edges.
    + by rewrite !iter_parents_eq, add_node_in_edges.
    + intros depth. apply _iter_descendants_children_ext, add_node_children.
    + intros fuel. apply bfs_loop_parents_ext, add_node_parents.
    + intros Hk depth. apply iter_user_permissions_ext.
      * rewrite add_node_nodes. unfold get_node in Hk.
        destruct (nodes g !! k) eqn:Hgk; [done|].
        destruct Hk as [Hk|[? ?]]; [|done]. by rewrite decide_False.
      * by rewrite add_node_out_edges.
      * apply add_node_children.
  - intros cs -> Hfresh. unfold get_node in *.
    pose proof (build_wf cs) as Hwf.
    assert (Hnew : nodes (add_node n (build cs)) !! id n = Some n).
    { rewrite add_node_nodes, Hfresh. by rewrite decide_True. }
    assert (Hout : index_get (id n) (out_edges (add_node n (build cs))) = []).
    { rewrite add_node_out_edges. by apply index_get_unknown_out. }
    assert (Hin : index_get (id n) (in_edges (add_node n (build cs))) = []).
    { rewrite add_node_in_edges. by apply index_get_unknown_in. }
    assert (Hch : iter_children (add_node n (build cs)) (id n) = gen_done []).
    { by rewrite iter_children_eq, Hout. }
    assert (Hpa : iter_parents (add_node n (build cs)) (id n) = gen_done []).
    { by rewrite iter_parents_eq, Hin. }
    split_and!; try done.
    + intros depth. simpl. by rewrite Hch.
    + intros fuel. unfold iter_resource_hierarchy. simpl.
      unfold bfs_iteration. rewrite Hpa. simpl. by destruct fuel.
    + intros depth. rewrite (iter_user_permissions_stored _ _ _ n) by done.
      by rewrite Hout.
    + intros depth spaces. simpl. unfold get_node. by rewrite Hnew, Hch.
Qed.

(** X15. The order of registration does not matter: two [add_node] calls
    with different ids, and an [add_node] call and an accepted [add_edge]
    call, leave the same node map and the same adjacency indexes in
    either order; and once both endpoints of an edge have been passed to
    [add_node], [add_edge] accepts it. *)
Theorem construction_calls_commute (g : Graph) :
  (∀ a b, id a ≠ id b →
          add_node a (add_node b g) = add_node b (add_node a g))
  ∧ (∀ n e, (add_edge e g).2 = None →
            add_edge e (add_node n g) = (add_node n (add_edge e g).1, None))
  ∧ (∀ e, (add_edge e (add_node (target e) (add_node (source e) g))).2
          = None).
Proof.
  split_and!.
  - intros a b. apply add_node_comm.
  - intros n e. apply add_edge_add_node_comm.
  - intros e. apply add_edge_after_endpoints.
Qed.

(** X16. Granting a role extends one listing at its end. After an
    accepted [add_edge] of [HasRoleEdge(u, t, r)], the permission listing
    of [u] is its previous listing followed, when that one completed, by
    the entry for [t] with role [r] and one entry with role [r] per node
    of the descendant traversal of [t], ending the way that traversal
    ends; the listing of every other id is unchanged. *)
Theorem grant_appends_block (g : Graph) (u t : Node) (r : RoleType)
    (depth : nat)
    (Hu : is_Some (get_node g (id u)))
    (Ht : is_Some (get_node g (id t))) :
  (add_edge (HasRoleEdge u t r) g).2 = None
  ∧ iter_user_permissions depth (add_edge (HasRoleEdge u t r) g).1 (id u)
    = gen_seq (iter_user_permissions depth g (id u))
        (mkGen (entry_for r t
                :: map (entry_for r)
                     (yielded (_iter_descendants depth g (id t))))
           (raised (_iter_descendants depth g (id t))))
  ∧ ∀ k, k ≠ id u →
      iter_user_permissions depth (add_edge (HasRoleEdge u t r) g).1 k
      = iter_user_permissions depth g k.
Proof.
  set (e := HasRoleEdge u t r).
  assert (Hacc : (add_edge e g).2 = None) by by apply add_edge_accepted_iff.
  assert (Hch : ∀ k, children (add_edge e g).1 k = children g k).
  { intros k. by apply add_edge_role_children. }
  split_and!; [done| |].
  - destruct Hu as [nu Hnu]. unfold get_node in Hnu.
    rewrite (iter_user_permissions_stored _ _ _ nu)
      by (by rewrite add_edge_nodes).
    rewrite (iter_user_permissions_stored _ _ _ nu) by done.
    rewrite add_edge_index_out, Hacc.
    rewrite filter_cons, filter_nil, decide_True by done.
    unfold gen_done at 1. rewrite gen_for_app.
    assert (Hbody : ∀ e', permissions_body depth (add_edge e g).1 e'
                          = permissions_body depth g e').
    { intros e'. unfold permissions_body.
      by rewrite (_iter_descendants_children_ext _ _ Hch). }
    f_equal.
    + apply gen_for_ext, Forall_forall. intros e' _. apply Hbody.
    + rewrite gen_for_cons, Hbody.
      change (gen_for (mkGen [] None) (permissions_body depth (add_edge e g).1))
        with (gen_done (A := PermissionEntry) []).
      rewrite gen_seq_nil_r.
      by rewrite (permissions_body_role _ _ e r).
  - intros k Hk. apply iter_user_permissions_ext.
    + by rewrite add_edge_nodes.
    + rewrite add_edge_index_out, Hacc.
      rewrite filter_cons, filter_nil, decide_False, app_nil_r; [done|].
      unfold source_is. simpl. congruence.
    + done.
Qed.

Lemma grant_appends_block_witness :
  iter_user_permissions 3 (add_edge (HasRoleEdge usr f5 VIEWER) chain_graph).1
    "U"
  = gen_done [entry_for OWNER f1; entry_for OWNER f5; entry_for OWNER f6;
              entry_for VIEWER f5; entry_for VIEWER f6].
Proof.
  assert (Hu : is_Some (get_node chain_graph (id usr))).
  { exists usr. reflexivity. }
  assert (Ht : is_Some (get_node chain_graph (id f5))).
  { exists f5. reflexivity. }
  destruct (grant_appends_block chain_graph usr f5 VIEWER 3 Hu Ht)
    as (_ & Hlist & _).
  change (id usr) with "U" in Hlist. rewrite Hlist. reflexivity.
Defined.

(** X17. The rendering of a node made by [IdentityNode] or [ResourceNode]
    identifies it: two such nodes with the same string are the same node.
    This rests on the inner types of the two enumerations holding no
    colon; two nodes made with the plain [Node] constructor can share
    their string. *)
Theorem Node_str_identifies_constructed_nodes :
  (∀ n1 n2, built_by_constructor n1 → built_by_constructor n2 →
            Node_str n1 = Node_str n2 → n1 = n2)
  ∧ ∃ n1 n2, n1 ≠ n2 ∧ Node_str n1 = Node_str n2.
Proof.
  split.
  - intros n1 n2 [(i1 & t1 & ->)|(i1 & t1 & ->)]
      [(i2 & t2 & ->)|(i2 & t2 & ->)];
      destruct t1, t2; unfold Node_str; simpl; intros Heq;
      by simplify_eq.
  - exists (mkNode RESOURCE "a:b" "c"), (mkNode RESOURCE "a" "b:c").
    split; [done|reflexivity].
Qed.
